(** * Verification of [processEntries] (src/template/src/lib/openai.ts)

    A shallow embedding of the task-extraction pipeline: the two regular
    expressions, the due-date resolution on JavaScript [Date] values, the
    category table, the cosine-similarity score on binary64 numbers, the
    stable sort by score and the summary line.

    Conventions of the embedding
    - A JavaScript string is a [string]: a sequence of code units below 256.
    - A JavaScript number that holds a score or an embedding component is a
      primitive binary64 [float]; lengths and time values are integers.
    - A [Date] is its time value, [option Z]: milliseconds since the epoch,
      [None] for the invalid date (NaN).
    - A promise is its [outcome]: resolved with a value or rejected.
    - What the host provides (the clock, the time zone, the parser behind
      [new Date(string)], the embedding provider) is the record [Env]. *)

From Stdlib Require Import ZArith Lia Bool List Ascii String Floats.
From Stdlib Require Import Sorting.Sorted Sorting.Permutation.
From Stdlib Require Import DecimalString.
From stdpp Require Import base option gmap strings.

Local Open Scope string_scope.
Local Open Scope Z_scope.

(* ================================================================== *)
(** * Strings *)
(* ================================================================== *)

Module JsString.

Definition code (c : ascii) : Z := Z.of_N (N_of_ascii c).
Definition chr (z : Z) : ascii := ascii_of_N (Z.to_N z).

(** The quotation mark, code unit 34. *)
Definition dquote : ascii := chr 34.

(** [String.prototype.toLowerCase] on code units below 256: A-Z and the
    Latin-1 capitals 0xC0-0xDE (0xD7, the multiplication sign, apart). *)
Definition lower_char (c : ascii) : ascii :=
  let n := code c in
  if (65 <=? n) && (n <=? 90) then chr (n + 32)
  else if (192 <=? n) && (n <=? 222) && negb (n =? 215) then chr (n + 32)
  else c.

Fixpoint toLowerCase (s : string) : string :=
  match s with
  | EmptyString => EmptyString
  | String c s' => String (lower_char c) (toLowerCase s')
  end.

(** WhiteSpace and LineTerminator code units below 256. *)
Definition is_space (c : ascii) : bool :=
  let n := code c in
  ((9 <=? n) && (n <=? 13)) || (n =? 32) || (n =? 160).

Fixpoint trimStart (s : string) : string :=
  match s with
  | String c s' => if is_space c then trimStart s' else s
  | EmptyString => EmptyString
  end.

Fixpoint rev_acc (s acc : string) : string :=
  match s with
  | EmptyString => acc
  | String c s' => rev_acc s' (String c acc)
  end.

Definition rev (s : string) : string := rev_acc s EmptyString.

(** [String.prototype.trim]. *)
Definition trim (s : string) : string := rev (trimStart (rev (trimStart s))).

(** A string is truthy when it is not empty. *)
Definition truthy (s : string) : bool :=
  match s with EmptyString => false | _ => true end.

Fixpoint starts_with (p s : string) : bool :=
  match p, s with
  | EmptyString, _ => true
  | String a p', String b s' => Ascii.eqb a b && starts_with p' s'
  | String _ _, EmptyString => false
  end.

(** [String.prototype.includes]. *)
Fixpoint includes (s sub : string) : bool :=
  starts_with sub s ||
  match s with
  | EmptyString => false
  | String _ s' => includes s' sub
  end.

(** [s.split(sep)[0]] for a one-character separator: the text before the
    first separator, the whole string when there is none. *)
Fixpoint split_head (sep : ascii) (s : string) : string :=
  match s with
  | EmptyString => EmptyString
  | String c s' => if Ascii.eqb c sep then EmptyString else String c (split_head sep s')
  end.

Fixpoint take (n : nat) (s : string) : string :=
  match n, s with
  | S n', String c s' => String c (take n' s')
  | _, _ => EmptyString
  end.

(** Decimal rendering of a length in a template literal. *)
Definition of_nat (n : nat) : string := NilEmpty.string_of_uint (Nat.to_uint n).

End JsString.

(* ================================================================== *)
(** * Regular expressions *)
(* ================================================================== *)

Module Regex.
Import JsString.

(** The fragment of the pattern language the two lexicons use. *)
Inductive regex : Type :=
| RChars (p : string)       (* literal pattern characters *)
| RWordPlus                 (* \w+ , greedy *)
| RWordB                    (* \b *)
| RSeq (r1 r2 : regex)
| RAlt (r1 r2 : regex)      (* r1|r2, left alternative first *)
| RNone.                    (* the empty alternation *)

(** \w is [A-Za-z0-9_]; the i flag adds nothing to it without the u flag. *)
Definition is_word (c : ascii) : bool :=
  let n := code c in
  ((97 <=? n) && (n <=? 122)) || ((65 <=? n) && (n <=? 90)) ||
  ((48 <=? n) && (n <=? 57)) || (n =? 95).

(** Canonicalize under the i flag, as far as it can relate a code unit to
    an ASCII pattern character: a-z go to A-Z, a code unit from 128 on
    never canonicalizes to an ASCII one. *)
Definition canonicalize (c : ascii) : ascii :=
  let n := code c in
  if (97 <=? n) && (n <=? 122) then chr (n - 32) else c.

Definition char_matches (p c : ascii) : bool :=
  Ascii.eqb (canonicalize p) (canonicalize c).

Definition is_word_opt (o : option ascii) : bool :=
  match o with Some c => is_word c | None => false end.

Definition head (s : string) : option ascii :=
  match s with String c _ => Some c | EmptyString => None end.

(** Consume the literal [p] at the front of [s]; the result is the last
    consumed character and the rest. *)
Fixpoint eat (p : string) (prev : option ascii) (s : string)
  : option (option ascii * string) :=
  match p with
  | EmptyString => Some (prev, s)
  | String a p' =>
      match s with
      | String b s' => if char_matches a b then eat p' (Some b) s' else None
      | EmptyString => None
      end
  end.

(** A continuation takes the last consumed character and the rest of
    the input and answers with the input left after the whole match. *)
Definition cont := option ascii -> string -> option string.

(** \w+ after its first character [c]: take more while possible,
    give back one at a time when the continuation fails. *)
Fixpoint word_more (c : ascii) (s : string) (k : cont) : option string :=
  match s with
  | String d s' =>
      if is_word d then
        match word_more d s' k with
        | Some r => Some r
        | None => k (Some c) s
        end
      else k (Some c) s
  | EmptyString => k (Some c) s
  end.

Fixpoint rmatch (r : regex) (prev : option ascii) (s : string) (k : cont)
  : option string :=
  match r with
  | RChars p =>
      match eat p prev s with
      | Some (prev', s') => k prev' s'
      | None => None
      end
  | RWordPlus =>
      match s with
      | String c s' => if is_word c then word_more c s' k else None
      | EmptyString => None
      end
  | RWordB =>
      if xorb (is_word_opt prev) (is_word_opt (head s)) then k prev s else None
  | RSeq r1 r2 => rmatch r1 prev s (fun prev' s' => rmatch r2 prev' s' k)
  | RAlt r1 r2 =>
      match rmatch r1 prev s k with
      | Some r => Some r
      | None => rmatch r2 prev s k
      end
  | RNone => None
  end.

(** The match that starts at the front of [s], if any: its text. *)
Definition match_here (r : regex) (prev : option ascii) (s : string) : option string :=
  match rmatch r prev s (fun _ rest => Some rest) with
  | Some rest => Some (take (String.length s - String.length rest) s)
  | None => None
  end.

(** [RegExp.prototype.exec] without the g flag: the leftmost match. *)
Fixpoint exec_from (r : regex) (prev : option ascii) (s : string) : option string :=
  match match_here r prev s with
  | Some m => Some m
  | None =>
      match s with
      | EmptyString => None
      | String c s' => exec_from r (Some c) s'
      end
  end.

(** [s.match(r)] read at index 0, and [r.test(s)]. *)
Definition exec (r : regex) (s : string) : option string := exec_from r None s.
Definition test (r : regex) (s : string) : bool :=
  match exec r s with Some _ => true | None => false end.

Definition alt (rs : list regex) : regex := fold_right RAlt RNone rs.
Definition lit (p : string) : regex := RChars p.
Definition lit_word (p : string) : regex := RSeq (RChars p) RWordPlus.

End Regex.

(* ================================================================== *)
(** * Promises *)
(* ================================================================== *)

(** What an invocation can be rejected with: the error of the embedding
    provider, or the RangeError of [toISOString] on an invalid date. *)
Inductive error : Type :=
| ProviderError (msg : string)
| RangeError.

Inductive outcome (A : Type) : Type :=
| Resolved (a : A)
| Rejected (e : error).
Arguments Resolved {A} a.
Arguments Rejected {A} e.

(** [await]: go on with the value, or pass the rejection on. *)
#[global] Instance outcome_bind : MBind outcome := fun A B f m =>
  match m with
  | Resolved a => f a
  | Rejected e => Rejected e
  end.

(* ================================================================== *)
(** * Dates *)
(* ================================================================== *)

Module JsDate.
Import JsString.

Definition msPerDay : Z := 86400000.

Definition Day (t : Z) : Z := t / msPerDay.
Definition TimeWithinDay (t : Z) : Z := t mod msPerDay.

(** A time value is at most 8.64e15 ms away from the epoch. *)
Definition TimeClip (t : Z) : option Z :=
  if Z.abs t <=? 8640000000000000 then Some t else None.

(** Day number to proleptic Gregorian (year, month 1-12, day 1-31). *)
Definition civil_from_days (days : Z) : Z * Z * Z :=
  let z := days + 719468 in
  let era := z / 146097 in
  let doe := z - era * 146097 in
  let yoe := (doe - doe / 1460 + doe / 36524 - doe / 146096) / 365 in
  let doy := doe - (365 * yoe + yoe / 4 - yoe / 100) in
  let mp := (5 * doy + 2) / 153 in
  let d := doy - (153 * mp + 2) / 5 + 1 in
  let m := if mp <? 10 then mp + 3 else mp - 9 in
  let y := yoe + era * 400 + (if m <=? 2 then 1 else 0) in
  (y, m, d).

(** Gregorian (year, month 1-12, day) to day number; the day may lie
    outside the month, as [setDate] allows. *)
Definition days_from_civil (y m d : Z) : Z :=
  let y' := if m <=? 2 then y - 1 else y in
  let era := y' / 400 in
  let yoe := y' - era * 400 in
  let doy := (153 * (if 2 <? m then m - 3 else m + 9) + 2) / 5 + d - 1 in
  let doe := yoe * 365 + yoe / 4 - yoe / 100 + doy in
  era * 146097 + doe - 719468.

Definition YearFromTime (t : Z) : Z := fst (fst (civil_from_days (Day t))).
(** Months count from 0. *)
Definition MonthFromTime (t : Z) : Z := snd (fst (civil_from_days (Day t))) - 1.
Definition DateFromTime (t : Z) : Z := snd (civil_from_days (Day t)).
Definition HourFromTime (t : Z) : Z := (t / 3600000) mod 24.
Definition MinFromTime (t : Z) : Z := (t / 60000) mod 60.
Definition SecFromTime (t : Z) : Z := (t / 1000) mod 60.
Definition msFromTime (t : Z) : Z := t mod 1000.

Definition MakeDay (year month date : Z) : Z :=
  let ym := year + month / 12 in
  let mn := month mod 12 in
  days_from_civil ym (mn + 1) 1 + date - 1.

Definition MakeDate (day time : Z) : Z := day * msPerDay + time.

Section Zone.
(** [LocalTZA t isUTC] of the host. *)
Variable LocalTZA : Z -> bool -> Z.

Definition LocalTime (t : Z) : Z := t + LocalTZA t true.
Definition UTC (t : Z) : Z := t - LocalTZA t false.

(** [Date.prototype.getDate]: NaN on the invalid date. *)
Definition getDate (d : option Z) : option Z :=
  match d with
  | Some t => Some (DateFromTime (LocalTime t))
  | None => None
  end.

(** [Date.prototype.setDate]: the new time value of the date. *)
Definition setDate (d : option Z) (date : option Z) : option Z :=
  match d, date with
  | Some tv, Some dt =>
      let t := LocalTime tv in
      let newDate :=
        MakeDate (MakeDay (YearFromTime t) (MonthFromTime t) dt) (TimeWithinDay t) in
      TimeClip (UTC newDate)
  | _, _ => None
  end.
End Zone.

(** NaN-propagating addition of an integer. *)
Definition plus (a : option Z) (k : Z) : option Z :=
  match a with Some x => Some (x + k) | None => None end.

Definition digit (n : Z) : ascii := chr (48 + n mod 10).

(** A field of fixed width [w], zero padded. *)
Fixpoint pad (w : nat) (n : Z) : string :=
  match w with
  | O => EmptyString
  | S w' => pad w' (n / 10) ++ String (digit n) EmptyString
  end.

(** Four digits for the years 0 to 9999, a sign and six digits beyond. *)
Definition year_string (y : Z) : string :=
  if (0 <=? y) && (y <=? 9999) then pad 4 y
  else (if y <? 0 then "-" else "+") ++ pad 6 (Z.abs y).

Definition date_string (t : Z) : string :=
  year_string (YearFromTime t) ++ "-" ++ pad 2 (MonthFromTime t + 1)
    ++ "-" ++ pad 2 (DateFromTime t).

Definition time_string (t : Z) : string :=
  pad 2 (HourFromTime t) ++ ":" ++ pad 2 (MinFromTime t) ++ ":"
    ++ pad 2 (SecFromTime t) ++ "." ++ pad 3 (msFromTime t).

(** [Date.prototype.toISOString]: a RangeError on the invalid date. *)
Definition toISOString (d : option Z) : outcome string :=
  match d with
  | Some t => Resolved (date_string t ++ "T" ++ time_string t ++ "Z")
  | None => Rejected RangeError
  end.

(** ** A parser for the two interchange forms used in the fixtures

    [YYYY-MM-DD] and [YYYY-MM-DDTHH:mm:ss(.sss)Z], both read as UTC.
    Anything else is the invalid date here; an engine may accept more. *)

Definition digit_val (c : ascii) : option Z :=
  let n := code c in
  if (48 <=? n) && (n <=? 57) then Some (n - 48) else None.

Fixpoint digits (w : nat) (acc : Z) (s : string) : option (Z * string) :=
  match w with
  | O => Some (acc, s)
  | S w' =>
      match s with
      | String c s' =>
          match digit_val c with
          | Some v => digits w' (acc * 10 + v) s'
          | None => None
          end
      | EmptyString => None
      end
  end.

Definition expect (c : ascii) (s : string) : option string :=
  match s with
  | String d s' => if Ascii.eqb c d then Some s' else None
  | EmptyString => None
  end.

Definition is_leap (y : Z) : bool :=
  ((y mod 4 =? 0) && negb (y mod 100 =? 0)) || (y mod 400 =? 0).

Definition days_in_month (y m : Z) : Z :=
  if m =? 2 then (if is_leap y then 29 else 28)
  else if (m =? 4) || (m =? 6) || (m =? 9) || (m =? 11) then 30 else 31.

Definition parse_time (s : string) : option Z :=
  '(hh, s) ← digits 2 0 s; s ← expect ":" s;
  '(mm, s) ← digits 2 0 s; s ← expect ":" s;
  '(ss, s) ← digits 2 0 s;
  '(ms, s) ← match s with
             | String "." s' => digits 3 0 s'
             | _ => Some (0, s)
             end;
  match s with
  | String "Z" EmptyString =>
      if (hh <=? 23) && (mm <=? 59) && (ss <=? 59)
      then Some (hh * 3600000 + mm * 60000 + ss * 1000 + ms) else None
  | _ => None
  end.

Definition iso_parse (s : string) : option Z :=
  '(y, s) ← digits 4 0 s; s ← expect "-" s;
  '(m, s) ← digits 2 0 s; s ← expect "-" s;
  '(d, s) ← digits 2 0 s;
  if (1 <=? m) && (m <=? 12) && (1 <=? d) && (d <=? days_in_month y m) then
    let day := days_from_civil y m d in
    match s with
    | EmptyString => Some (MakeDate day 0)
    | String "T" s' => time ← parse_time s'; Some (MakeDate day time)
    | _ => None
    end
  else None.

End JsDate.

(* ================================================================== *)
(** * Numbers *)
(* ================================================================== *)

Module JsNumber.

Local Open Scope float_scope.

Definition is_nan (x : float) : bool := negb (x =? x).

(** A number is falsy when it is +0, -0 or NaN. *)
Definition truthy (x : float) : bool := negb ((x =? 0) || is_nan x).

(** [x || 0] on a number that may be undefined. *)
Definition or_zero (x : option float) : float :=
  match x with
  | Some v => if truthy v then v else 0
  | None => 0
  end.

(** [a.reduce((sum, val, i) => sum + val * b[i], 0)]; reading [b] past
    its end gives undefined, and the product is NaN. *)
Fixpoint reduce_dot (sum : float) (a b : list float) : float :=
  match a with
  | [] => sum
  | val :: a' =>
      match b with
      | y :: b' => reduce_dot (sum + val * y) a' b'
      | [] => reduce_dot (sum + val * nan) a' []
      end
  end.

(** [a.reduce((sum, val) => sum + val * val, 0)]. *)
Definition reduce_squares (a : list float) : float :=
  fold_left (fun sum val => sum + val * val) a 0.

Definition cosineSimilarity (a b : list float) : float :=
  if negb (Nat.eqb (length a) (length b)) || Nat.eqb (length a) 0 then 0
  else
    let dotProduct := reduce_dot 0 a b in
    let normA := sqrt (reduce_squares a) in
    let normB := sqrt (reduce_squares b) in
    if (normB =? 0) || (normA =? 0) then 0 else dotProduct / (normA * normB).

Definition of_Z (n : Z) : float := of_uint63 (Uint63.of_Z n).

End JsNumber.

(* ================================================================== *)
(** * The data model *)
(* ================================================================== *)

(** The fields of a VoiceEntry that [processEntries] reads. *)
Record VoiceEntry : Type := {
  id : string;
  transcript_raw : string;
  transcript_user : string;
  tags_user : list string;
  created_at : string;
  embedding : option (list float)
}.

Record ExtractedTask : Type := {
  task_text : string;
  due_date : option string;
  status : string;
  category : string;
  score : option float
}.

Record ProcessedResult : Type := {
  summary : string;
  tagFrequencies : gmap string nat;
  tasks : list ExtractedTask
}.

(** The host of an invocation. *)
Record Env : Type := {
  now : Z;                              (* the time value of [new Date()] *)
  LocalTZA : Z -> bool -> Z;            (* the local time zone adjustment *)
  Date_parse : string -> option Z;      (* [Date.parse] *)
  embed : string -> outcome (list float)   (* the embedding provider *)
}.

(* ================================================================== *)
(** * processEntries *)
(* ================================================================== *)

Import JsString Regex JsDate JsNumber.

Definition taskVerbs : regex :=
  RSeq RWordB (RSeq (alt (map lit
    [ "plan"; "planning"; "planned"; "need"; "needs"; "needing";
      "want"; "wants"; "wanting"; "schedule"; "scheduling"; "scheduled";
      "going to"; "tomorrow"; "today"; "yesterday"; "this week"; "next week";
      "start"; "starting"; "started"; "finish"; "finishing"; "finished";
      "call"; "calling"; "called"; "buy"; "buying"; "bought";
      "reply"; "replying"; "replied"; "send"; "sending"; "sent";
      "clean"; "cleaning"; "cleaned"; "organize"; "organizing"; "organized";
      "submit"; "submitting"; "submitted"; "book"; "booking"; "booked" ]))
    RWordB).

(** The words that may open an unresolved time phrase. *)
Definition open_phrase_words : list string := [ "by"; "sometime"; "later"; "before" ].

Definition timePhrases : regex :=
  RSeq RWordB (RSeq (alt
    (map lit [ "tomorrow"; "today"; "yesterday"; "this week"; "next week" ]
     ++ map (fun w => lit_word (w ++ " ")) open_phrase_words))
    RWordB).

Definition categories : list (string * list string) :=
  [ ("Work", [ "job"; "work"; "proposal"; "report"; "meeting"; "interview";
               "resume"; "email"; "slides"; "application" ]);
    ("Personal", [ "mom"; "grandpa"; "aunt"; "friends"; "call"; "coffee";
                   "family"; "grandmother"; "catch up" ]);
    ("Health", [ "health"; "caffeine"; "sugar"; "run"; "workout"; "dentist";
                 "doctor"; "no-sugar" ]);
    ("Home", [ "clean"; "organize"; "declutter"; "kitchen"; "bathroom";
               "garage"; "paint"; "room"; "closet" ]);
    ("Other", []) ].

(** [query && query.trim()] as a condition. *)
Definition query_given (query : option string) : bool :=
  match query with
  | Some q => JsString.truthy q && JsString.truthy (trim q)
  | None => false
  end.

(** The tag loop of one entry.  The counts live in a plain object; a tag
    that names a property of [Object.prototype] is outside this model. *)
Definition countTags (tagFrequencies : gmap string nat) (tags : list string)
  : gmap string nat :=
  fold_left (fun m tag =>
    if JsString.truthy tag && JsString.truthy (trim tag)
       && negb (includes tag (String dquote EmptyString))
    then <[ tag := (default 0 (m !! tag) + 1)%nat ]> m
    else m) tags tagFrequencies.

(** The first category with a keyword in the transcript, else Other. *)
Fixpoint assignCategory (cats : list (string * list string)) (transcript : string)
  : string :=
  match cats with
  | [] => "Other"
  | (cat, keywords) :: rest =>
      if existsb (fun keyword => includes transcript keyword) keywords then cat
      else assignCategory rest transcript
  end.

Section Host.
Variable env : Env.

(** [new Date(s)]. *)
Definition new_Date (s : string) : option Z :=
  t ← Date_parse env s; TimeClip t.

(** [created.setDate(created.getDate() + k)] and then
    [created.toISOString().split('T')[0]]. *)
Definition shifted_date (created : option Z) (k : Z) : outcome string :=
  let created' := setDate (LocalTZA env) created (plus (getDate (LocalTZA env) created) k) in
  iso ← toISOString created';
  Resolved (split_head "T" iso).

(** The due date of a matched time phrase. *)
Definition resolveDueDate (entry : VoiceEntry) (phrase : string) : outcome string :=
  stamp ← (if JsString.truthy (created_at entry) then Resolved (created_at entry)
           else toISOString (TimeClip (now env)));
  let created := new_Date stamp in
  if includes phrase "tomorrow" then shifted_date created 1
  else if includes phrase "today" then Resolved (split_head " " (created_at entry))
  else if includes phrase "yesterday" then shifted_date created (-1)
  else if includes phrase "this week" || includes phrase "next week" then
    shifted_date created (if includes phrase "next" then 7 else 0)
  else Resolved phrase.

(** The lower-cased user transcript the lexicons are matched against. *)
Definition transcript_of (entry : VoiceEntry) : string :=
  if JsString.truthy (transcript_user entry) then toLowerCase (transcript_user entry)
  else "".

(** The entry qualifies as a task. *)
Definition qualifies (entry : VoiceEntry) : bool :=
  JsString.truthy (transcript_of entry) && test taskVerbs (transcript_of entry).

(** The task of a qualifying entry. *)
Definition extractTask (queryEmbedding : option (list float)) (entry : VoiceEntry)
  : outcome ExtractedTask :=
  let transcript := transcript_of entry in
  dueDate ← match exec timePhrases transcript with
            | Some phrase => d ← resolveDueDate entry phrase; Resolved (Some d)
            | None => Resolved None
            end;
  Resolved {|
    task_text := transcript_user entry;
    due_date := dueDate;
    status := "pending";
    category := assignCategory categories transcript;
    score := match queryEmbedding, embedding entry with
             | Some q, Some e => Some (cosineSimilarity q e)
             | _, _ => None
             end
  |}.

(** One round of the loop over the entries (its [console.log] of the tags
    is not part of the result and is left out). *)
Definition step (queryEmbedding : option (list float))
    (acc : gmap string nat * list ExtractedTask) (entry : VoiceEntry)
  : outcome (gmap string nat * list ExtractedTask) :=
  let tagFrequencies := countTags (fst acc) (tags_user entry) in
  if qualifies entry then
    task ← extractTask queryEmbedding entry;
    Resolved (tagFrequencies, (snd acc ++ [task])%list)
  else Resolved (tagFrequencies, snd acc).

Fixpoint loop (queryEmbedding : option (list float)) (entries : list VoiceEntry)
    (acc : gmap string nat * list ExtractedTask)
  : outcome (gmap string nat * list ExtractedTask) :=
  match entries with
  | [] => Resolved acc
  | entry :: rest => acc' ← step queryEmbedding acc entry; loop queryEmbedding rest acc'
  end.

(** The comparator [(a, b) => (b.score || 0) - (a.score || 0)]. *)
Definition comparefn (a b : ExtractedTask) : float :=
  (or_zero (score b) - or_zero (score a))%float.

(** [Array.prototype.sort]: stable; [x] goes behind [y] only when the
    comparator is positive on them (a NaN counts as +0).  The engine is
    free in its method; [sort_unique] below shows that every stable
    method gives the list of this one. *)
Fixpoint insert_sorted (x : ExtractedTask) (l : list ExtractedTask) : list ExtractedTask :=
  match l with
  | [] => [x]
  | y :: l' => if (0 <? comparefn x y)%float then y :: insert_sorted x l' else x :: l
  end.

Fixpoint sort (l : list ExtractedTask) : list ExtractedTask :=
  match l with
  | [] => []
  | x :: l' => insert_sorted x (sort l')
  end.

Definition summary_of (entries : list VoiceEntry) (tasks : list ExtractedTask)
    (query : option string) : string :=
  "Analysed " ++ of_nat (length entries) ++ " entries, extracted "
    ++ of_nat (length tasks) ++ " tasks"
    ++ match query with
       | Some q =>
           if JsString.truthy q
           then " for query " ++ String dquote q ++ String dquote EmptyString
           else ""
       | None => ""
       end.

(** [if (query && query.trim()) queryEmbedding = await embed(query)]. *)
Definition query_embedding (query : option string) : outcome (option (list float)) :=
  match query with
  | Some q =>
      if query_given query then v ← embed env q; Resolved (Some v)
      else Resolved None
  | None => Resolved None
  end.

Definition processEntries (entries : list VoiceEntry) (query : option string)
  : outcome ProcessedResult :=
  queryEmbedding ← query_embedding query;
  acc ← loop queryEmbedding entries (∅, []);
  let tasks := if query_given query then sort (snd acc) else snd acc in
  Resolved {|
    summary := summary_of entries tasks query;
    tagFrequencies := fst acc;
    tasks := tasks
  |}.

End Host.

(** ** The offline host: the stub embedding, UTC, the interchange parser *)

(** [embed] without an API key: eight components from the character codes. *)
Definition embed_stub (text : string) : list float :=
  map (fun i =>
         let c := match String.get (i mod String.length text) text with
                  | Some ch => code ch
                  | None => 0
                  end in
         (of_Z (c mod 100) / of_Z 100)%float)
      (seq 0 8).

Definition offline (clock : Z) : Env := {|
  now := clock;
  LocalTZA := fun _ _ => 0;
  Date_parse := iso_parse;
  embed := fun text => Resolved (embed_stub text)
|}.

(* ================================================================== *)
(** * Binary64 comparisons *)
(* ================================================================== *)

(** What the sort needs of IEEE arithmetic: the sign of a difference tells
    the order of its operands, and the order is a total preorder away from
    NaN.  The primitive operations are related to [SpecFloat] by the
    standard library's specification of them. *)

Module Binary64.

(** ** Rounding keeps the sign *)

(** A mantissa of [d] binary digits lies from [2^(d-1)] up to [2^d]. *)
Lemma digits2_pos_bounds m :
  2 ^ (Zpos (digits2_pos m) - 1) <= Zpos m < 2 ^ Zpos (digits2_pos m).
Proof.
  induction m as [m IH|m IH|]; cbn [digits2_pos].
  - rewrite Pos2Z.inj_succ, (Pos2Z.inj_xI m).
    replace (Z.succ (Zpos (digits2_pos m)) - 1) with (Z.succ (Zpos (digits2_pos m) - 1)) by lia.
    rewrite !Z.pow_succ_r by lia.
    generalize dependent (2 ^ (Z.pos (digits2_pos m) - 1)).
    generalize dependent (2 ^ Z.pos (digits2_pos m)). intros; lia.
  - rewrite Pos2Z.inj_succ, (Pos2Z.inj_xO m).
    replace (Z.succ (Zpos (digits2_pos m)) - 1) with (Z.succ (Zpos (digits2_pos m) - 1)) by lia.
    rewrite !Z.pow_succ_r by lia.
    generalize dependent (2 ^ (Z.pos (digits2_pos m) - 1)).
    generalize dependent (2 ^ Z.pos (digits2_pos m)). intros; lia.
  - cbn. lia.
Qed.

Lemma shr_1_m mrs : 0 <= shr_m mrs -> shr_m (shr_1 mrs) = shr_m mrs / 2.
Proof.
  destruct mrs as [m r s]. cbn [shr_m shr_1].
  destruct m as [|[p|p|]|p]; intros H; cbn [shr_m]; try reflexivity; try lia.
  - rewrite (Pos2Z.inj_xI p). apply Z.div_unique with 1; lia.
  - rewrite (Pos2Z.inj_xO p). apply Z.div_unique with 0; lia.
Qed.

Lemma pow2_xO p : 2 ^ Zpos p~0 = 2 ^ Zpos p * 2 ^ Zpos p.
Proof.
  rewrite (Pos2Z.inj_xO p).
  replace (2 * Zpos p) with (Zpos p + Zpos p) by lia.
  apply Z.pow_add_r; lia.
Qed.

Lemma pow2_xI p : 2 ^ Zpos p~1 = 2 * (2 ^ Zpos p * 2 ^ Zpos p).
Proof.
  rewrite (Pos2Z.inj_xI p).
  replace (2 * Zpos p + 1) with (Z.succ (Zpos p + Zpos p)) by lia.
  rewrite Z.pow_succ_r, Z.pow_add_r by lia. reflexivity.
Qed.

Lemma pow2_pos n : 0 <= n -> 0 < 2 ^ n.
Proof. intros. apply Z.pow_pos_nonneg; lia. Qed.

(** Shifting right by [p] places divides the mantissa by [2^p]. *)
Lemma shr_m_iter p : forall mrs,
  0 <= shr_m mrs -> shr_m (SpecFloat.iter_pos shr_1 p mrs) = shr_m mrs / 2 ^ Zpos p.
Proof.
  induction p as [p IH|p IH|]; intros mrs H; cbn [SpecFloat.iter_pos].
  - assert (H1 : 0 <= shr_m (shr_1 mrs))
      by (rewrite shr_1_m by assumption; apply Z.div_pos; lia).
    assert (H2 : 0 <= shr_m (SpecFloat.iter_pos shr_1 p (shr_1 mrs)))
      by (rewrite IH by assumption; apply Z.div_pos; [assumption|apply pow2_pos; lia]).
    pose proof (pow2_pos (Zpos p) ltac:(lia)) as Hp.
    rewrite IH, IH, shr_1_m by assumption.
    rewrite !Z.div_div by lia.
    f_equal. rewrite pow2_xI. ring.
  - assert (H2 : 0 <= shr_m (SpecFloat.iter_pos shr_1 p mrs))
      by (rewrite IH by assumption; apply Z.div_pos; [assumption|apply pow2_pos; lia]).
    pose proof (pow2_pos (Zpos p) ltac:(lia)) as Hp.
    rewrite IH, IH by assumption.
    rewrite !Z.div_div by lia.
    f_equal. rewrite pow2_xO. ring.
  - rewrite shr_1_m by assumption. reflexivity.
Qed.

Abbreviation emin := (SpecFloat.emin prec emax).

Lemma shr_record_of_loc_m m l : shr_m (shr_record_of_loc m l) = m.
Proof. destruct l as [|[]]; reflexivity. Qed.

(** Rounding never takes a positive mantissa at a representable
    exponent down to zero. *)
Lemma shr_fexp_pos m e l :
  0 < m -> emin <= e ->
  0 < shr_m (fst (shr_fexp prec emax m e l)) /\ emin <= snd (shr_fexp prec emax m e l).
Proof.
  intros Hm He. unfold shr_fexp, shr.
  destruct m as [|q|q]; try lia. cbn [Zdigits2].
  pose proof (digits2_pos_bounds q) as [Hlo _].
  set (d := Zpos (digits2_pos q)) in *.
  destruct (fexp prec emax (d + e) - e) as [|p|p] eqn:Hn; cbn [fst snd];
    rewrite ?shr_record_of_loc_m; try (split; lia).
  rewrite shr_m_iter by (rewrite shr_record_of_loc_m; lia).
  rewrite shr_record_of_loc_m.
  unfold fexp in Hn. change (SpecFloat.emin prec emax) with (-1074) in *.
  change prec with 53 in *.
  assert (Hp : Zpos p = d - 53) by lia.
  split; [|lia].
  apply Z.div_str_pos. split; [apply pow2_pos; lia|].
  transitivity (2 ^ (d - 1)); [|assumption].
  apply Z.pow_le_mono_r; lia.
Qed.

Lemma round_nearest_even_pos m l : 0 < m -> 0 < round_nearest_even m l.
Proof.
  intros H. destruct l as [|[]]; cbn; try lia. destruct (Z.even m); lia.
Qed.

(** The sign of a rounded non-zero value is the sign it is given. *)
Definition has_sign (s : bool) (x : spec_float) : Prop :=
  match x with
  | S754_finite s' _ _ | S754_infinity s' => s' = s
  | _ => False
  end.

Lemma binary_round_aux_sign s m e l :
  0 < m -> emin <= e -> has_sign s (binary_round_aux prec emax s m e l).
Proof.
  intros Hm He. unfold binary_round_aux.
  pose proof (shr_fexp_pos m e l Hm He) as [H1 H2].
  destruct (shr_fexp prec emax m e l) as [mrs' e']. cbn [fst snd] in *.
  pose proof (shr_fexp_pos _ e' loc_Exact
                (round_nearest_even_pos _ (loc_of_shr_record mrs') H1) H2) as [H3 H4].
  destruct (shr_fexp prec emax _ e' loc_Exact) as [mrs'' e'']. cbn [fst snd] in *.
  destruct (shr_m mrs'') as [|q|q]; try lia.
  destruct (e'' <=? emax - prec); reflexivity.
Qed.

Lemma binary_round_sign s m e :
  emin <= e -> has_sign s (binary_round prec emax s m e).
Proof.
  intros He. unfold binary_round, shl_align.
  assert (Hf : emin <= fexp prec emax (Zpos (digits2_pos m) + e))
    by (unfold fexp; lia).
  destruct (fexp prec emax (Zpos (digits2_pos m) + e) - e);
    apply binary_round_aux_sign; lia.
Qed.

(** ** Aligned mantissas compare like the numbers *)

Lemma iter_xO_val m d : Zpos (Pos.iter xO m d) = Zpos m * 2 ^ Zpos d.
Proof.
  induction d as [|d IH] using Pos.peano_ind.
  - cbn [Pos.iter]. rewrite (Pos2Z.inj_xO m). change (2 ^ 1) with 2. ring.
  - rewrite Pos.iter_succ, (Pos2Z.inj_xO (Pos.iter xO m d)), IH, Pos2Z.inj_succ.
    rewrite Z.pow_succ_r by lia. ring.
Qed.

Lemma shl_align_val m e e' :
  e' <= e -> Zpos (fst (shl_align m e e')) = Zpos m * 2 ^ (e - e').
Proof.
  intros H. unfold shl_align.
  destruct (e' - e) as [|p|p] eqn:Hd; cbn [fst]; try lia.
  - replace (e - e') with 0 by lia. change (2 ^ 0) with 1. ring.
  - rewrite iter_xO_val. do 2 f_equal. lia.
Qed.

Lemma bounded_inv m e :
  bounded prec emax m e = true ->
  emin <= e /\ Zpos (digits2_pos m) <= 53 /\ (emin < e -> Zpos (digits2_pos m) = 53).
Proof.
  unfold bounded, canonical_mantissa, fexp.
  change (SpecFloat.emin prec emax) with (-1074). change prec with 53.
  intros H. apply andb_prop in H as [H _]. apply Z.eqb_eq in H. lia.
Qed.

(** On canonical mantissas the exponent decides, and then the mantissa. *)
Lemma aligned_lt mx ex my ey :
  bounded prec emax mx ex = true -> bounded prec emax my ey = true ->
  ex < ey -> Zpos mx < Zpos my * 2 ^ (ey - ex).
Proof.
  intros Hx Hy Hlt.
  apply bounded_inv in Hx as (Hex & Hdx & _).
  apply bounded_inv in Hy as (_ & _ & Hdy).
  change (SpecFloat.emin prec emax) with (-1074) in *.
  specialize (Hdy ltac:(lia)).
  pose proof (digits2_pos_bounds mx) as [_ Hmx].
  pose proof (digits2_pos_bounds my) as [Hmy _].
  rewrite Hdy in Hmy.
  assert (Zpos mx < 2 ^ 53).
  { eapply Z.lt_le_trans; [exact Hmx|]. apply Z.pow_le_mono_r; lia. }
  assert (2 ^ 1 <= 2 ^ (ey - ex)) by (apply Z.pow_le_mono_r; lia).
  change (2 ^ 1) with 2 in *.
  assert (2 ^ (53 - 1) * 2 <= Zpos my * 2 ^ (ey - ex))
    by (apply Z.mul_le_mono_nonneg; lia).
  change (2 ^ (53 - 1) * 2) with (2 ^ 53) in *. lia.
Qed.

Lemma aligned_compare mx ex my ey :
  bounded prec emax mx ex = true -> bounded prec emax my ey = true ->
  (Zpos mx * 2 ^ (ex - Z.min ex ey) ?= Zpos my * 2 ^ (ey - Z.min ex ey)) =
  match ex ?= ey with
  | Eq => Pos.compare_cont Eq mx my
  | c => c
  end.
Proof.
  intros Hx Hy.
  destruct (Z.compare_spec ex ey) as [->|Hlt|Hgt].
  - rewrite Z.min_id, Z.sub_diag. change (2 ^ 0) with 1.
    rewrite !Z.mul_1_r. reflexivity.
  - rewrite Z.min_l, Z.sub_diag by lia. change (2 ^ 0) with 1.
    rewrite Z.mul_1_r. apply Z.compare_lt_iff. now apply aligned_lt.
  - rewrite Z.min_r, Z.sub_diag by lia. change (2 ^ 0) with 1.
    rewrite Z.mul_1_r. apply Z.compare_gt_iff. now apply aligned_lt.
Qed.

Lemma SFltb_zero_sign s r :
  has_sign s r -> SFltb (S754_zero false) r = negb s.
Proof.
  destruct r as [| | |s' m e]; cbn; try contradiction; intros ->; now destruct s.
Qed.

(** The comparator of the sort: a difference is positive exactly when
    its first operand is the greater one. *)
Lemma SFsub_pos x y :
  valid_binary x = true -> valid_binary y = true ->
  SFltb (S754_zero false) (SF64sub y x) = SFltb x y.
Proof.
  intros Hx Hy.
  destruct x as [sx|sx| |sx mx ex]; destruct y as [sy|sy| |sy my ey];
    try reflexivity;
    try (destruct sx; reflexivity); try (destruct sy; reflexivity);
    try (destruct sx, sy; reflexivity).
  cbn [SpecFloat.valid_binary] in Hx, Hy.
  pose proof (bounded_inv _ _ Hx) as (Hex & _).
  pose proof (bounded_inv _ _ Hy) as (Hey & _).
  pose proof (aligned_compare mx ex my ey Hx Hy) as Hc.
  unfold SF64sub, SFsub.
  rewrite (Z.min_comm ey ex).
  rewrite !shl_align_val by lia.
  set (X := Zpos mx * 2 ^ (ex - Z.min ex ey)) in *.
  set (Y := Zpos my * 2 ^ (ey - Z.min ex ey)) in *.
  assert (HX : 0 < X) by (apply Z.mul_pos_pos; [lia|apply pow2_pos; lia]).
  assert (HY : 0 < Y) by (apply Z.mul_pos_pos; [lia|apply pow2_pos; lia]).
  assert (Hcmp : SFltb (S754_finite sx mx ex) (S754_finite sy my ey) =
                 (0 <? cond_Zopp sy Y - cond_Zopp sx X)).
  { unfold SFltb, SFcompare. destruct sx, sy; cbn [cond_Zopp].
    - destruct (ex ?= ey); rewrite <- ?Hc;
        destruct (Z.compare_spec X Y); try discriminate; cbn [CompOpp]; symmetry;
        try (apply Z.ltb_lt; lia); try (apply Z.ltb_ge; lia).
    - symmetry. apply Z.ltb_lt. lia.
    - symmetry. apply Z.ltb_ge. lia.
    - destruct (ex ?= ey); rewrite <- ?Hc;
        destruct (Z.compare_spec X Y); try discriminate; symmetry;
        try (apply Z.ltb_lt; lia); try (apply Z.ltb_ge; lia). }
  rewrite Hcmp. unfold binary_normalize.
  destruct (cond_Zopp sy Y - cond_Zopp sx X) as [|q|q] eqn:HD.
  - reflexivity.
  - rewrite (SFltb_zero_sign false) by (apply binary_round_sign; lia). reflexivity.
  - rewrite (SFltb_zero_sign true) by (apply binary_round_sign; lia). reflexivity.
Qed.

(** ** The order of the comparisons

    [SFcompare] orders the numbers like triples of integers: the sign
    class, then the exponent, then the mantissa. *)

Definition rank (x : spec_float) : Z * Z * Z :=
  match x with
  | S754_zero _ | S754_nan => (0, 0, 0)
  | S754_infinity false => (2, 0, 0)
  | S754_infinity true => (-2, 0, 0)
  | S754_finite false m e => (1, e, Zpos m)
  | S754_finite true m e => (-1, - e, Zneg m)
  end.

Definition lex_lt (a b : Z * Z * Z) : Prop :=
  let '(a1, a2, a3) := a in
  let '(b1, b2, b3) := b in
  a1 < b1 \/ (a1 = b1 /\ (a2 < b2 \/ (a2 = b2 /\ a3 < b3))).

Definition lex_le (a b : Z * Z * Z) : Prop := lex_lt a b \/ a = b.

Definition lexc (a b : Z * Z * Z) : comparison :=
  let '(a1, a2, a3) := a in
  let '(b1, b2, b3) := b in
  match a1 ?= b1 with
  | Eq => match a2 ?= b2 with Eq => a3 ?= b3 | c => c end
  | c => c
  end.

Lemma SFcompare_rank x y :
  x <> S754_nan -> y <> S754_nan -> SFcompare x y = Some (lexc (rank x) (rank y)).
Proof.
  intros Hx Hy.
  destruct x as [sx|sx| |sx mx ex]; destruct y as [sy|sy| |sy my ey];
    try congruence;
    try (destruct sx; reflexivity); try (destruct sy; reflexivity);
    try (destruct sx, sy; reflexivity).
  destruct sx, sy; try reflexivity; cbn [SFcompare rank lexc]; f_equal.
  change (-1 ?= -1) with Eq. cbn match.
  rewrite Z.compare_opp, (Z.compare_antisym ex ey).
  destruct (ex ?= ey); reflexivity.
Qed.

Lemma lexc_lt a b : lexc a b = Lt <-> lex_lt a b.
Proof.
  destruct a as [[a1 a2] a3], b as [[b1 b2] b3]. unfold lexc, lex_lt.
  destruct (Z.compare_spec a1 b1); [destruct (Z.compare_spec a2 b2);
    [destruct (Z.compare_spec a3 b3)|..]|..];
    (split; [intros; try discriminate; lia | intros; try reflexivity; lia]).
Qed.

Lemma lexc_eq a b : lexc a b = Eq <-> a = b.
Proof.
  destruct a as [[a1 a2] a3], b as [[b1 b2] b3]. unfold lexc.
  destruct (Z.compare_spec a1 b1); [destruct (Z.compare_spec a2 b2);
    [destruct (Z.compare_spec a3 b3)|..]|..];
    (split; [intros; try discriminate; subst; try reflexivity
            | intros [= -> -> ->]; try reflexivity; lia ]).
Qed.

Lemma lex_total a b : ~ lex_lt a b -> lex_le b a.
Proof.
  destruct a as [[a1 a2] a3], b as [[b1 b2] b3]. unfold lex_le, lex_lt. intros H.
  destruct (Z.eq_dec a1 b1), (Z.eq_dec a2 b2), (Z.eq_dec a3 b3); subst;
    try (now right); left; lia.
Qed.

Lemma lex_lt_le a b : lex_lt a b -> lex_le a b.
Proof. now left. Qed.

Lemma lex_lt_irrefl a : ~ lex_lt a a.
Proof. destruct a as [[a1 a2] a3]. unfold lex_lt. lia. Qed.

Lemma lex_le_trans a b c : lex_le a b -> lex_le b c -> lex_le a c.
Proof.
  destruct a as [[a1 a2] a3], b as [[b1 b2] b3], c as [[c1 c2] c3].
  unfold lex_le, lex_lt. intros [H1|[= -> -> ->]] [H2|[= -> -> ->]];
    try (left; lia); try (left; assumption). now right.
Qed.

(** ** On the primitive numbers *)

Local Open Scope float_scope.

Definition nonnan (x : float) : Prop := (x =? x) = true.

Definition frank (x : float) : Z * Z * Z := rank (Prim2SF x).

Lemma nonnan_spec x : nonnan x -> Prim2SF x <> S754_nan.
Proof.
  unfold nonnan. rewrite FloatAxioms.eqb_spec. intros H E. rewrite E in H. discriminate.
Qed.

Lemma ltb_rank x y : nonnan x -> nonnan y -> (x <? y) = true <-> lex_lt (frank x) (frank y).
Proof.
  intros Hx%nonnan_spec Hy%nonnan_spec.
  rewrite FloatAxioms.ltb_spec. unfold SFltb. rewrite SFcompare_rank by assumption.
  rewrite <- lexc_lt. fold (frank x) (frank y).
  destruct (lexc (frank x) (frank y)); split; congruence.
Qed.

Lemma eqb_rank x y : nonnan x -> nonnan y -> (x =? y) = true <-> frank x = frank y.
Proof.
  intros Hx%nonnan_spec Hy%nonnan_spec.
  rewrite FloatAxioms.eqb_spec. unfold SFeqb. rewrite SFcompare_rank by assumption.
  rewrite <- lexc_eq. fold (frank x) (frank y).
  destruct (lexc (frank x) (frank y)); split; congruence.
Qed.

Lemma leb_rank x y : nonnan x -> nonnan y -> (x <=? y) = true <-> lex_le (frank x) (frank y).
Proof.
  intros Hx%nonnan_spec Hy%nonnan_spec.
  rewrite FloatAxioms.leb_spec. unfold SFleb, lex_le. rewrite SFcompare_rank by assumption.
  rewrite <- lexc_lt, <- lexc_eq. fold (frank x) (frank y).
  destruct (lexc (frank x) (frank y)); split; try congruence; try tauto.
  intros [|]; congruence.
Qed.

Lemma eqb_nonnan_r x v : (x =? v) = true -> nonnan v.
Proof.
  unfold nonnan. rewrite !FloatAxioms.eqb_spec. unfold SFeqb.
  destruct (Prim2SF v) as [s|s| |s m e] eqn:Hv.
  - reflexivity.
  - now destruct s.
  - destruct (Prim2SF x) as [| | |[] ? ?]; discriminate.
  - intros _. cbn. destruct s; rewrite Z.compare_refl, Pos.compare_cont_refl; reflexivity.
Qed.

(** On the primitive numbers, NaN included: [y - x] is positive exactly
    when [x] is below [y]. *)
Lemma sub_pos_ltb x y : (0 <? y - x) = (x <? y).
Proof.
  rewrite !FloatAxioms.ltb_spec, FloatAxioms.sub_spec.
  change (Prim2SF 0) with (S754_zero false).
  apply SFsub_pos; apply Prim2SF_valid.
Qed.

End Binary64.

(* ================================================================== *)
(** * The shape of a result *)
(* ================================================================== *)

Section Shape.
Variable env : Env.

Lemma query_embedding_absent query qe :
  query_given query = false ->
  query_embedding env query = Resolved qe -> qe = None.
Proof.
  unfold query_embedding. intros ->. destruct query; congruence.
Qed.

Lemma query_embedding_given query qe :
  query_given query = true ->
  query_embedding env query = Resolved qe -> exists v, qe = Some v.
Proof.
  unfold query_embedding. intros Hg. rewrite Hg.
  destruct query as [q|]; [|discriminate].
  destruct (embed env q) as [v|e]; simpl; [|discriminate].
  intros [= <-]. now exists v.
Qed.

(** The loop pushes one task per qualifying entry, in input order, and
    leaves the tasks it started with in place. *)
Lemma loop_tasks qe entries : forall tf ts tf' ts',
  loop env qe entries (tf, ts) = Resolved (tf', ts') ->
  exists new,
    ts' = (ts ++ new)%list /\
    Forall2 (fun e t => extractTask env qe e = Resolved t)
            (List.filter qualifies entries) new.
Proof.
  induction entries as [|e es IH]; intros tf ts tf' ts' H; simpl in H.
  - injection H as <- <-. exists []. split; [now rewrite app_nil_r | constructor].
  - unfold step in H. simpl in H.
    destruct (qualifies e) eqn:Hq; simpl in *.
    + rewrite Hq.
      destruct (extractTask env qe e) as [t|err] eqn:Ht; simpl in H; [|discriminate].
      apply IH in H as (new & -> & HF).
      exists (t :: new). split; [now rewrite <- app_assoc | now constructor].
    + rewrite Hq. apply IH in H as (new & -> & HF). now exists new.
Qed.

(** A resolved invocation, taken apart. *)
Lemma processEntries_resolved entries query res :
  processEntries env entries query = Resolved res ->
  exists qe ts0,
    query_embedding env query = Resolved qe /\
    loop env qe entries (∅, []) = Resolved (tagFrequencies res, ts0) /\
    Forall2 (fun e t => extractTask env qe e = Resolved t)
            (List.filter qualifies entries) ts0 /\
    tasks res = (if query_given query then sort ts0 else ts0) /\
    summary res = summary_of entries (tasks res) query.
Proof.
  unfold processEntries.
  destruct (query_embedding env query) as [qe|err] eqn:Hqe; simpl; [|discriminate].
  destruct (loop env qe entries (∅, [])) as [[tf ts0]|err] eqn:Hl; simpl; [|discriminate].
  intros [= <-]. simpl.
  exists qe, ts0. repeat split; try reflexivity; try assumption.
  apply loop_tasks in Hl as (new & Heq & HF). simpl in Heq. now subst.
Qed.

(** What a task records of its entry. *)
Lemma extractTask_text qe e t :
  extractTask env qe e = Resolved t -> task_text t = transcript_user e.
Proof.
  unfold extractTask.
  destruct (exec timePhrases (transcript_of e)) as [p|]; simpl.
  - destruct (resolveDueDate env e p); simpl; [|discriminate]. now intros [= <-].
  - now intros [= <-].
Qed.

Lemma extractTask_score qe e t :
  extractTask env qe e = Resolved t ->
  score t = match qe, embedding e with
            | Some q, Some v => Some (cosineSimilarity q v)
            | _, _ => None
            end.
Proof.
  unfold extractTask.
  destruct (exec timePhrases (transcript_of e)) as [p|]; simpl.
  - destruct (resolveDueDate env e p); simpl; [|discriminate]. now intros [= <-].
  - now intros [= <-].
Qed.

Lemma extractTask_due qe e t :
  extractTask env qe e = Resolved t ->
  match exec timePhrases (transcript_of e) with
  | Some p => exists d, resolveDueDate env e p = Resolved d /\ due_date t = Some d
  | None => due_date t = None
  end.
Proof.
  unfold extractTask.
  destruct (exec timePhrases (transcript_of e)) as [p|]; simpl.
  - destruct (resolveDueDate env e p) as [d|]; simpl; [|discriminate].
    intros [= <-]. now exists d.
  - now intros [= <-].
Qed.

Lemma transcript_of_lower e : transcript_of e = toLowerCase (transcript_user e).
Proof.
  unfold transcript_of. now destruct (transcript_user e).
Qed.

(** ** Sorting permutes *)

Lemma insert_sorted_perm x l : Permutation (insert_sorted x l) (x :: l).
Proof.
  induction l as [|y l IH]; simpl; [reflexivity|].
  destruct (0 <? comparefn x y)%float; [|reflexivity].
  rewrite IH. apply perm_swap.
Qed.

Lemma sort_perm l : Permutation (sort l) l.
Proof.
  induction l as [|x l IH]; simpl; [reflexivity|].
  rewrite insert_sorted_perm. now constructor.
Qed.

End Shape.

(** Matching two lists element by element survives a permutation of one
    of them, by permuting the other alike. *)
Lemma Forall2_perm_r {A B : Type} (R : A -> B -> Prop) (l2 l2' : list B) :
  Permutation l2 l2' ->
  forall l1, Forall2 R l1 l2 ->
  exists l1', Permutation l1 l1' /\ Forall2 R l1' l2'.
Proof.
  induction 1 as [|y l2 l2' _ IH|y z l2|l2 l2' l2'' _ IH1 _ IH2]; intros l1 HF.
  - inversion HF; subst. exists []. split; [reflexivity|constructor].
  - inversion HF as [|x ? l1' ? Hxy HF']; subst.
    destruct (IH _ HF') as (l1'' & Hp & HF'').
    exists (x :: l1''). split; [now constructor | now constructor].
  - inversion HF as [|x ? l1' ? Hxy HF']; subst.
    inversion HF' as [|x' ? l1'' ? Hxz HF'']; subst.
    exists (x' :: x :: l1''). split; [apply perm_swap | repeat (constructor; try assumption)].
  - destruct (IH1 _ HF) as (l1' & Hp1 & HF1).
    destruct (IH2 _ HF1) as (l1'' & Hp2 & HF2).
    exists l1''. split; [now transitivity l1' | assumption].
Qed.

(* ================================================================== *)
(** * Fixtures *)
(* ================================================================== *)

(** An entry with the given user transcript and creation timestamp, no
    tags and no embedding. *)
Definition entry_of (text stamp : string) : VoiceEntry := {|
  id := "mock-id-1";
  transcript_raw := text;
  transcript_user := text;
  tags_user := [];
  created_at := stamp;
  embedding := None
|}.

(** 2025-06-17T00:00:00.000Z. *)
Definition june17 : Z := 1750118400000.

(** Digits, and the two date-only shapes [toISOString] can give. *)
Definition is_digit (c : ascii) : bool := (48 <=? code c) && (code c <=? 57).

(** YYYY-MM-DD. *)
Definition is_iso_date (s : string) : bool :=
  match s with
  | String y1 (String y2 (String y3 (String y4 (String "-"
      (String m1 (String m2 (String "-" (String d1 (String d2 EmptyString))))))))) =>
      forallb is_digit [y1; y2; y3; y4; m1; m2; d1; d2]
  | _ => false
  end.

(** A sign and six year digits, for the years outside 0 to 9999. *)
Definition is_expanded_date (s : string) : bool :=
  match s with
  | String sg (String y1 (String y2 (String y3 (String y4 (String y5 (String y6
      (String "-" (String m1 (String m2 (String "-" (String d1 (String d2
        EmptyString)))))))))))) =>
      (Ascii.eqb sg "+" || Ascii.eqb sg "-")
      && forallb is_digit [y1; y2; y3; y4; y5; y6; m1; m2; d1; d2]
  | _ => false
  end.

(* ================================================================== *)
(** * Claims settled on concrete inputs *)
(* ================================================================== *)

(** C3 (the code departs from the claim).  A query of one blank is not the
    absent query: no embedding is asked for and nothing is sorted, as for
    the absent query, but the summary tests [query] alone, without the
    [trim] of the two other tests, and the blank is quoted in it. *)
Theorem blank_query_leaks_into_summary :
  forall env,
    exists r_blank r_absent,
      processEntries env [] (Some " ") = Resolved r_blank /\
      processEntries env [] None = Resolved r_absent /\
      summary r_absent = "Analysed 0 entries, extracted 0 tasks" /\
      summary r_blank =
        "Analysed 0 entries, extracted 0 tasks for query "
          ++ String dquote (" " ++ String dquote EmptyString) /\
      r_blank <> r_absent.
Proof.
  intros env. eexists. eexists.
  split; [reflexivity|]. split; [reflexivity|].
  split; [reflexivity|]. split; [reflexivity|].
  intros H. apply (f_equal summary) in H. vm_compute in H. discriminate H.
Qed.

(** C4 (the code departs from the claim).  For "today" the due date is
    [created_at.split(' ')[0]]: the date alone when the timestamp has a
    space after the date, the whole timestamp when it has a T there. *)
Theorem today_keeps_the_time_part :
  forall env,
    let spaced := entry_of "Call mom today" "2025-06-17 10:00:00" in
    let iso := entry_of "Call mom today" "2025-06-17T00:00:00Z" in
    qualifies iso = true /\
    exec timePhrases (transcript_of iso) = Some "today" /\
    (exists r, processEntries env [spaced] None = Resolved r /\
               map due_date (tasks r) = [Some "2025-06-17"]) /\
    (exists r, processEntries env [iso] None = Resolved r /\
               map due_date (tasks r) = [Some "2025-06-17T00:00:00Z"] /\
               is_iso_date "2025-06-17T00:00:00Z" = false).
Proof.
  intros env spaced iso.
  split; [vm_compute; reflexivity|]. split; [vm_compute; reflexivity|]. split.
  - eexists. split; [vm_compute; reflexivity | reflexivity].
  - eexists. split; [vm_compute; reflexivity | split; reflexivity].
Qed.

(** C8 (the code departs from the claim).  An entry with an empty creation
    timestamp is dated from the clock of the host, so the same records and
    the same query give different due dates on different days. *)
Theorem empty_timestamp_follows_the_clock :
  let entries := [entry_of "call mom tomorrow" ""] in
  exists r1 r2,
    processEntries (offline june17) entries None = Resolved r1 /\
    processEntries (offline (june17 + msPerDay)) entries None = Resolved r2 /\
    map due_date (tasks r1) = [Some "2025-06-18"] /\
    map due_date (tasks r2) = [Some "2025-06-19"] /\
    r1 <> r2.
Proof.
  eexists. eexists.
  split; [vm_compute; reflexivity|]. split; [vm_compute; reflexivity|].
  split; [reflexivity|]. split; [reflexivity|].
  intros H. apply (f_equal (fun r => map due_date (tasks r))) in H.
  vm_compute in H. discriminate H.
Qed.

(** The entries of the intent lexicon, as the alternation lists them. *)
Definition lexicon_of (r : regex) : list string :=
  (fix alts (r : regex) : list string :=
     match r with
     | RAlt (RChars p) rest => p :: alts rest
     | _ => []
     end)
    match r with
    | RSeq RWordB (RSeq a RWordB) => a
    | _ => RNone
    end.

Definition time_words : list string :=
  [ "tomorrow"; "today"; "yesterday"; "this week"; "next week" ].

(** The planning, need, want, schedule and action forms: the lexicon
    without the time words. *)
Definition action_forms : list string :=
  List.filter (fun v => negb (existsb (String.eqb v) time_words)) (lexicon_of taskVerbs).

(** C10.  A transcript that is a bare time word, with none of the action
    forms in it, still gives a task: the time words are entries of the
    intent lexicon. *)
Theorem bare_time_word_is_a_task :
  Forall (fun w =>
            existsb (String.eqb w) (lexicon_of taskVerbs) = true /\
            forallb (fun v => negb (includes w v)) action_forms = true /\
            exists r t,
              processEntries (offline june17) [entry_of w "2025-06-17T00:00:00Z"] None
                = Resolved r /\
              tasks r = [t] /\ task_text t = w)
         [ "tomorrow"; "today"; "this week"; "next week" ].
Proof.
  repeat constructor;
    try (vm_compute; reflexivity);
    (eexists; eexists; split; [vm_compute; reflexivity | split; reflexivity]).
Qed.

(** C6, the counterexample.  "Email Sarah about the project" matches no
    entry of the intent lexicon ("email" is a category keyword, not a task
    verb), so the record gives no task at all. *)
Lemma email_sarah_gives_no_task :
  ~ (exists r t,
       processEntries (offline june17)
         [entry_of "Email Sarah about the project" "2025-06-17T00:00:00Z"] None
         = Resolved r /\
       In t (tasks r) /\ category t = "Work" /\ due_date t = None).
Proof.
  intros (r & t & Hr & Hin & _).
  vm_compute in Hr. injection Hr as <-. destruct Hin.
Qed.

(** C6, amended.  For one record with the user transcript "Email Sarah
    about the project", whatever its other fields and the host, no task is
    produced: the transcript matches no entry of the intent lexicon.  The
    category keywords do classify the transcript as Work and no time
    phrase matches it, which is what the task of a record that qualifies
    shows: "Need to email Sarah about the project" gives category Work and
    no due date. *)
Theorem email_sarah_not_a_task :
  forall env i raw tags stamp emb,
    let entry := {| id := i; transcript_raw := raw;
                    transcript_user := "Email Sarah about the project";
                    tags_user := tags; created_at := stamp; embedding := emb |} in
    qualifies entry = false /\
    (exists r, processEntries env [entry] None = Resolved r /\ tasks r = []) /\
    assignCategory categories (transcript_of entry) = "Work" /\
    exec timePhrases (transcript_of entry) = None /\
    (exists r t,
       processEntries env
         [entry_of "Need to email Sarah about the project" stamp] None = Resolved r /\
       tasks r = [t] /\ category t = "Work" /\ due_date t = None).
Proof.
  intros env i raw tags stamp emb entry.
  assert (Hq : qualifies entry = false) by (vm_compute; reflexivity).
  split; [exact Hq|]. split.
  - unfold processEntries, query_given, loop, step.
    rewrite Hq. eexists. split; reflexivity.
  - split; [vm_compute; reflexivity|]. split; [vm_compute; reflexivity|].
    eexists. eexists. split; [vm_compute; reflexivity|]. repeat split.
Qed.

(** C5, the counterexample.  In "finish report by tomorrow" the first time
    phrase is "by tomorrow", of the form "by X"; it contains "tomorrow",
    and the due date is the day after the creation date, not the phrase. *)
Lemma by_tomorrow_is_resolved :
  let entry := entry_of "finish report by tomorrow" "2025-06-17T00:00:00Z" in
  qualifies entry = true /\
  exec timePhrases (transcript_of entry) = Some ("by" ++ " " ++ "tomorrow") /\
  exists r t,
    processEntries (offline june17) [entry] None = Resolved r /\
    tasks r = [t] /\
    due_date t = Some "2025-06-18" /\
    due_date t <> Some ("by" ++ " " ++ "tomorrow").
Proof.
  split; [vm_compute; reflexivity|]. split; [vm_compute; reflexivity|].
  eexists. eexists. split; [vm_compute; reflexivity|].
  split; [reflexivity|]. split; [reflexivity|]. discriminate.
Qed.

(** C1, the counterexample.  The first time phrase of "finish report by
    friday" is "by friday"; it is the due date as it stands, which is
    neither absent nor of the form YYYY-MM-DD. *)
Lemma raw_phrase_is_not_a_date :
  exists r t,
    processEntries (offline june17)
      [entry_of "finish report by friday" "2025-06-17T00:00:00Z"] None = Resolved r /\
    In t (tasks r) /\
    due_date t = Some "by friday" /\
    is_iso_date "by friday" = false.
Proof.
  eexists. eexists. split; [vm_compute; reflexivity|].
  split; [left; reflexivity|]. split; reflexivity.
Qed.

(* ================================================================== *)
(** * Claims about every input *)
(* ================================================================== *)

Lemma trim_truthy q : JsString.truthy (trim q) = true -> JsString.truthy q = true.
Proof. destruct q; [discriminate | reflexivity]. Qed.

(** C9.  With a query that is not blank, a failure of the embedding
    provider on the query is the outcome of the whole invocation: it is
    rejected with that error, and nothing of a result is returned. *)
Theorem embed_failure_rejects :
  forall env entries q err,
    JsString.truthy (trim q) = true ->
    embed env q = Rejected err ->
    processEntries env entries (Some q) = Rejected err.
Proof.
  intros env entries q err Hq He.
  unfold processEntries, query_embedding, query_given.
  rewrite (trim_truthy q Hq), Hq, He. reflexivity.
Qed.

(** A host whose embedding provider fails. *)
Definition failing_provider : Env := {|
  now := june17;
  LocalTZA := fun _ _ => 0;
  Date_parse := iso_parse;
  embed := fun _ => Rejected (ProviderError "429 Too Many Requests")
|}.

Lemma embed_failure_rejects_witness :
  JsString.truthy (trim "health appointment") = true /\
  embed failing_provider "health appointment"
    = Rejected (ProviderError "429 Too Many Requests") /\
  processEntries failing_provider
    [entry_of "Book dentist appointment tomorrow" "2025-06-17T00:00:00Z"]
    (Some "health appointment")
    = Rejected (ProviderError "429 Too Many Requests").
Proof.
  split; [reflexivity|]. split; [reflexivity|].
  apply (embed_failure_rejects failing_provider _ "health appointment");
    reflexivity.
Defined.

Lemma Forall2_Forall_r {A B : Type} (R : A -> B -> Prop) (P : B -> Prop) l1 l2 :
  Forall2 R l1 l2 -> (forall a b, R a b -> P b) -> Forall P l2.
Proof.
  induction 1; intros HP; constructor; eauto.
Qed.

Lemma Forall2_In_l {A B : Type} (R : A -> B -> Prop) l1 l2 a :
  Forall2 R l1 l2 -> In a l1 -> exists b, In b l2 /\ R a b.
Proof.
  induction 1 as [|x y l1 l2 Hxy _ IH]; intros Hin; [destruct Hin|].
  destruct Hin as [<-|Hin].
  - exists y. split; [now left | assumption].
  - destruct (IH Hin) as (b & Hb & HR). exists b. split; [now right | assumption].
Qed.

(** C2.  Every task of a result has a source among the qualifying
    entries, one entry per task, and it carries a score exactly when the
    query is given (not empty and not blank, the other queries counting as
    absent) and that entry carries an embedding.  Without a given query no
    task carries a score. *)
Theorem score_iff_query_and_embedding :
  forall env entries query res,
    processEntries env entries query = Resolved res ->
    (exists sources,
       Permutation (List.filter qualifies entries) sources /\
       Forall2 (fun e t =>
                  task_text t = transcript_user e /\
                  (is_Some (score t) <->
                   query_given query = true /\ is_Some (embedding e)))
               sources (tasks res)) /\
    (query_given query = false -> Forall (fun t => score t = None) (tasks res)).
Proof.
  intros env entries query res H.
  apply processEntries_resolved in H as (qe & ts0 & Hqe & _ & HF & Ht & _).
  set (R := fun e t =>
              task_text t = transcript_user e /\
              (is_Some (score t) <->
               query_given query = true /\ is_Some (embedding e))).
  assert (HR : Forall2 R (List.filter qualifies entries) ts0).
  { eapply Forall2_impl; [exact HF|]. intros e t He. split.
    - exact (extractTask_text env qe e t He).
    - rewrite (extractTask_score env qe e t He).
      destruct (query_given query) eqn:Hg.
      + destruct (query_embedding_given env query qe Hg Hqe) as [v ->].
        destruct (embedding e) as [emb|].
        * split; [intros _; split; [reflexivity | eauto] | intros _; eauto].
        * split; [intros [? [=]] | intros [_ [? [=]]]].
      + rewrite (query_embedding_absent env query qe Hg Hqe).
        split; [intros [? [=]] | intros [[=] _]]. }
  assert (Hs : exists sources,
             Permutation (List.filter qualifies entries) sources /\
             Forall2 R sources (tasks res)).
  { rewrite Ht. destruct (query_given query).
    - apply Forall2_perm_r with (l2 := ts0); [|exact HR].
      symmetry. apply sort_perm.
    - exists (List.filter qualifies entries). split; [reflexivity | exact HR]. }
  split; [exact Hs|].
  intros Hg. destruct Hs as (sources & _ & HS).
  eapply Forall2_Forall_r; [exact HS|].
  intros e t [_ Hsc]. destruct (score t) as [v|]; [|reflexivity].
  destruct Hsc as [Hsc _]. destruct Hsc as [Hsc _]; [eauto | congruence].
Qed.

Lemma score_iff_query_and_embedding_witness :
  let entries :=
    [ {| id := "mock-id-1"; transcript_raw := ""; tags_user := [];
         transcript_user := "Book dentist appointment tomorrow";
         created_at := "2025-06-17T00:00:00Z";
         embedding := Some (embed_stub "Book dentist appointment tomorrow") |};
      entry_of "Had dinner with friends" "2025-06-17T00:00:00Z";
      entry_of "Need to call mom" "2025-06-17T00:00:00Z" ] in
  exists res,
    processEntries (offline june17) entries (Some "health appointment") = Resolved res /\
    (exists sources,
       Permutation (List.filter qualifies entries) sources /\
       Forall2 (fun e t =>
                  task_text t = transcript_user e /\
                  (is_Some (score t) <->
                   query_given (Some "health appointment") = true /\
                   is_Some (embedding e)))
               sources (tasks res)) /\
    (query_given (Some "health appointment") = false ->
     Forall (fun t => score t = None) (tasks res)).
Proof.
  intros entries. eexists. split; [vm_compute; reflexivity|].
  apply (score_iff_query_and_embedding (offline june17) entries
           (Some "health appointment")).
  vm_compute. reflexivity.
Defined.

(** ** The unresolved time phrases *)

Fixpoint all_word (s : string) : bool :=
  match s with
  | EmptyString => true
  | String c s' => is_word c && all_word s'
  end.

Lemma starts_with_all_word p : forall s,
  all_word s = true -> starts_with p s = true -> all_word p = true.
Proof.
  induction p as [|a p IH]; intros s Hs Hp; [reflexivity|].
  destruct s as [|b s]; [discriminate|]. cbn in *.
  apply andb_prop in Hs as [Hb Hs]. apply andb_prop in Hp as [Hab Hp].
  apply Ascii.eqb_eq in Hab. subst b. rewrite Hb. cbn. eauto.
Qed.

(** What a run of word characters includes is a run of word characters. *)
Lemma includes_all_word p s :
  all_word s = true -> includes s p = true -> all_word p = true.
Proof.
  induction s as [|c s IH]; intros Hs Hp.
  - cbn in Hp. rewrite orb_false_r in Hp. now apply starts_with_all_word with "".
  - cbn [includes] in Hp. apply orb_prop in Hp as [Hp|Hp].
    + now apply starts_with_all_word with (String c s).
    + cbn in Hs. apply andb_prop in Hs as [_ Hs]. auto.
Qed.

Lemma includes_spaced_word s p :
  all_word s = true -> all_word p = false -> includes s p = false.
Proof.
  intros Hs Hp. destruct (includes s p) eqn:E; [|reflexivity].
  rewrite (includes_all_word p s Hs E) in Hp. discriminate.
Qed.

(** A phrase none of the resolvable words occurs in is the due date. *)
Lemma resolveDueDate_raw env e p d :
  includes p "tomorrow" = false -> includes p "today" = false ->
  includes p "yesterday" = false ->
  includes p "this week" = false -> includes p "next week" = false ->
  resolveDueDate env e p = Resolved d -> d = p.
Proof.
  intros H1 H2 H3 H4 H5. unfold resolveDueDate.
  rewrite H1, H2, H3, H4, H5.
  destruct (if JsString.truthy (created_at e) then _ else _); cbn; congruence.
Qed.

(** An opening word, a blank and a word [X]: only what [X] includes can
    make the phrase include a resolvable word. *)
Lemma open_phrase_includes w X :
  In w open_phrase_words -> all_word X = true ->
  includes (w ++ " " ++ X) "tomorrow" = includes X "tomorrow" /\
  includes (w ++ " " ++ X) "today" = includes X "today" /\
  includes (w ++ " " ++ X) "yesterday" = includes X "yesterday" /\
  includes (w ++ " " ++ X) "this week" = false /\
  includes (w ++ " " ++ X) "next week" = false.
Proof.
  intros Hw HX.
  assert (H4 : includes X "this week" = false)
    by (apply includes_spaced_word; [assumption | reflexivity]).
  assert (H5 : includes X "next week" = false)
    by (apply includes_spaced_word; [assumption | reflexivity]).
  destruct Hw as [<-|[<-|[<-|[<-|[]]]]];
    cbv [String.append]; cbn; repeat split; assumption.
Qed.

(** C5, amended.  For a qualifying record whose first time phrase is "by
    X", "sometime X", "later X" or "before X", with X a word that includes
    none of "tomorrow", "today" and "yesterday", the due date of its task
    is the matched phrase as it stands. *)
Theorem open_phrase_left_raw :
  forall env entries query res e w X,
    processEntries env entries query = Resolved res ->
    In e entries -> qualifies e = true ->
    In w open_phrase_words -> all_word X = true ->
    exec timePhrases (transcript_of e) = Some (w ++ " " ++ X) ->
    includes X "tomorrow" = false -> includes X "today" = false ->
    includes X "yesterday" = false ->
    exists t, In t (tasks res) /\ task_text t = transcript_user e /\
              due_date t = Some (w ++ " " ++ X).
Proof.
  intros env entries query res e w X H Hin Hq Hw HX Hm H1 H2 H3.
  apply processEntries_resolved in H as (qe & ts0 & _ & _ & HF & Ht & _).
  assert (Hf : In e (List.filter qualifies entries))
    by (apply filter_In; split; assumption).
  destruct (Forall2_In_l _ _ _ _ HF Hf) as (t & Hint & He).
  exists t. split; [|split].
  - rewrite Ht. destruct (query_given query); [|assumption].
    apply Permutation_in with ts0; [symmetry; apply sort_perm | assumption].
  - exact (extractTask_text env qe e t He).
  - pose proof (extractTask_due env qe e t He) as Hd. rewrite Hm in Hd.
    destruct Hd as (d & Hr & ->). f_equal.
    destruct (open_phrase_includes w X Hw HX) as (E1 & E2 & E3 & E4 & E5).
    apply (resolveDueDate_raw env e); congruence.
Qed.

Lemma open_phrase_left_raw_witness :
  let e := entry_of "finish report by friday" "2025-06-17T00:00:00Z" in
  exists res,
    processEntries (offline june17) [e] None = Resolved res /\
    In e [e] /\ qualifies e = true /\
    In "by" open_phrase_words /\ all_word "friday" = true /\
    exec timePhrases (transcript_of e) = Some ("by" ++ " " ++ "friday") /\
    includes "friday" "tomorrow" = false /\ includes "friday" "today" = false /\
    includes "friday" "yesterday" = false /\
    exists t, In t (tasks res) /\ task_text t = transcript_user e /\
              due_date t = Some ("by" ++ " " ++ "friday").
Proof.
  intros e. eexists.
  split; [vm_compute; reflexivity|]. split; [left; reflexivity|].
  split; [vm_compute; reflexivity|]. split; [left; reflexivity|].
  split; [reflexivity|]. split; [vm_compute; reflexivity|].
  split; [reflexivity|]. split; [reflexivity|]. split; [reflexivity|].
  apply (open_phrase_left_raw (offline june17) [e] None _ e "by" "friday");
    try (vm_compute; reflexivity); left; reflexivity.
Defined.

(** ** Date-only strings *)

Lemma code_chr z : 0 <= z < 256 -> code (chr z) = z.
Proof.
  intros H. unfold code, chr. rewrite N_ascii_embedding by lia. lia.
Qed.

Lemma code_digit n : code (digit n) = 48 + n mod 10.
Proof.
  unfold digit. apply code_chr.
  pose proof (Z.mod_pos_bound n 10 ltac:(lia)). lia.
Qed.

Lemma digit_is_digit n : is_digit (digit n) = true.
Proof.
  unfold is_digit. rewrite code_digit.
  pose proof (Z.mod_pos_bound n 10 ltac:(lia)).
  apply andb_true_intro. split; apply Z.leb_le; lia.
Qed.

Lemma digit_not_T n : Ascii.eqb (digit n) "T" = false.
Proof.
  destruct (Ascii.eqb (digit n) "T") eqn:E; [|reflexivity].
  apply Ascii.eqb_eq in E. apply (f_equal code) in E. rewrite code_digit in E.
  change (code "T") with 84 in E.
  pose proof (Z.mod_pos_bound n 10 ltac:(lia)). lia.
Qed.

(** A date-only string: YYYY-MM-DD, or a sign and six year digits. *)
Definition date_only (d : string) : Prop :=
  is_iso_date d || is_expanded_date d = true.

Lemma date_string_shape t : date_only (date_string t).
Proof.
  unfold date_only, date_string, year_string.
  destruct ((0 <=? YearFromTime t) && (YearFromTime t <=? 9999));
    [|destruct (YearFromTime t <? 0)];
    cbv [pad String.append]; cbn [is_iso_date is_expanded_date forallb];
    rewrite ?digit_is_digit; try reflexivity;
    apply orb_true_iff; right; reflexivity.
Qed.

Lemma date_string_split t rest :
  split_head "T" (date_string t ++ String "T" rest) = date_string t.
Proof.
  unfold date_string, year_string.
  destruct ((0 <=? YearFromTime t) && (YearFromTime t <=? 9999));
    [|destruct (YearFromTime t <? 0)];
    cbv [pad String.append]; cbn [split_head];
    rewrite ?digit_not_T; reflexivity.
Qed.

(** The months and days the fields are padded from fit their two digits. *)
Lemma civil_from_days_range days :
  let '(y, m, d) := civil_from_days days in 1 <= m <= 12 /\ 1 <= d <= 31.
Proof.
  unfold civil_from_days.
  set (z := days + 719468).
  set (era := z / 146097).
  set (doe := z - era * 146097).
  assert (Hdoe : 0 <= doe <= 146096).
  { unfold doe, era. pose proof (Z.mod_pos_bound z 146097 ltac:(lia)).
    rewrite Z.mod_eq in H by lia. lia. }
  clearbody doe. clear z era.
  set (yoe := (doe - doe / 1460 + doe / 36524 - doe / 146096) / 365).
  set (doy := doe - (365 * yoe + yoe / 4 - yoe / 100)).
  assert (Hdoy : 0 <= doy <= 365).
  { unfold doy, yoe. Z.div_mod_to_equations. lia. }
  clearbody doy. clear yoe doe Hdoe.
  set (mp := (5 * doy + 2) / 153).
  assert (Hmp : 0 <= mp <= 11) by (unfold mp; Z.div_mod_to_equations; lia).
  assert (Hd : 1 <= doy - (153 * mp + 2) / 5 + 1 <= 31)
    by (unfold mp; Z.div_mod_to_equations; lia).
  clearbody mp.
  destruct (mp <? 10) eqn:E; [apply Z.ltb_lt in E | apply Z.ltb_ge in E]; lia.
Qed.

(** The two calendar conversions agree. *)
Lemma days_from_civil_from_days n :
  let '(y, m, d) := civil_from_days n in days_from_civil y m d = n.
Proof.
  unfold civil_from_days, days_from_civil.
  set (z := n + 719468).
  set (era := z / 146097).
  set (doe := z - era * 146097).
  assert (Hdoe : 0 <= doe <= 146096).
  { unfold doe, era. pose proof (Z.mod_pos_bound z 146097 ltac:(lia)) as H.
    rewrite Z.mod_eq in H by lia. lia. }
  assert (Hz : n = era * 146097 + doe - 719468) by (unfold doe, z; lia).
  clearbody doe. clearbody era. clear z.
  set (yoe := (doe - doe / 1460 + doe / 36524 - doe / 146096) / 365).
  assert (Hyoe : 0 <= yoe <= 399) by (unfold yoe; Z.div_mod_to_equations; lia).
  set (doy := doe - (365 * yoe + yoe / 4 - yoe / 100)).
  assert (Hdoy : 0 <= doy <= 365) by (unfold doy, yoe; Z.div_mod_to_equations; lia).
  assert (Hdoe' : doe = yoe * 365 + yoe / 4 - yoe / 100 + doy) by (unfold doy; lia).
  clearbody doy. clearbody yoe.
  set (mp := (5 * doy + 2) / 153).
  assert (Hmp : 0 <= mp <= 11) by (unfold mp; Z.div_mod_to_equations; lia).
  set (d := doy - (153 * mp + 2) / 5 + 1).
  assert (Hd : doy = (153 * mp + 2) / 5 + d - 1) by (unfold d; lia).
  clearbody d. clearbody mp.
  destruct (mp <? 10) eqn:E; [apply Z.ltb_lt in E | apply Z.ltb_ge in E].
  - replace (mp + 3 <=? 2) with false by (symmetry; apply Z.leb_gt; lia).
    replace (2 <? mp + 3) with true by (symmetry; apply Z.ltb_lt; lia).
    replace (mp + 3 - 3) with mp by lia.
    replace (yoe + era * 400 + 0) with (era * 400 + yoe) by lia.
    rewrite Z.div_add_l by lia. rewrite (Z.div_small yoe 400) by lia.
    replace (era * 400 + yoe - (era + 0) * 400) with yoe by lia. lia.
  - replace (mp - 9 <=? 2) with true by (symmetry; apply Z.leb_le; lia).
    replace (2 <? mp - 9) with false by (symmetry; apply Z.ltb_ge; lia).
    replace (mp - 9 + 9) with mp by lia.
    replace (yoe + era * 400 + 1 - 1) with (era * 400 + yoe) by lia.
    rewrite Z.div_add_l by lia. rewrite (Z.div_small yoe 400) by lia.
    replace (era * 400 + yoe - (era + 0) * 400) with yoe by lia. lia.
Qed.

(** In a zone of constant offset, [d.setDate(d.getDate() + k)] moves the
    date by [k] whole days. *)
Lemma setDate_shift offset t k :
  let zone := fun (_ : Z) (_ : bool) => offset in
  setDate zone (Some t) (plus (getDate zone (Some t)) k) = TimeClip (t + k * msPerDay).
Proof.
  cbn [getDate plus setDate]. unfold LocalTime, UTC. f_equal.
  set (tl := t + offset).
  unfold MakeDate, MakeDay, YearFromTime, MonthFromTime, DateFromTime.
  pose proof (days_from_civil_from_days (Day tl)) as Hrt.
  pose proof (civil_from_days_range (Day tl)) as Hrg.
  destruct (civil_from_days (Day tl)) as [[y m] d]. cbn [fst snd].
  destruct Hrg as [Hm _].
  rewrite (Z.div_small (m - 1) 12), (Z.mod_small (m - 1) 12) by lia.
  replace (y + 0) with y by lia. replace (m - 1 + 1) with m by lia.
  assert (Hlin : days_from_civil y m 1 + (d + k) - 1 = days_from_civil y m d + k)
    by (unfold days_from_civil; lia).
  rewrite Hlin, Hrt. unfold Day, TimeWithinDay, msPerDay.
  pose proof (Z.div_mod tl 86400000 ltac:(lia)). unfold tl in *. lia.
Qed.

(** Inside the range of time values the year has at most six digits. *)
Lemma year_fits_six_digits t u :
  TimeClip t = Some u -> -1000000 < YearFromTime u < 1000000.
Proof.
  unfold TimeClip. destruct (Z.abs t <=? 8640000000000000) eqn:E; [|discriminate].
  intros [= <-]. apply Z.leb_le in E.
  unfold YearFromTime, Day, msPerDay, civil_from_days. cbn [fst].
  set (days := t / 86400000).
  assert (Hdays : -100000000 <= days <= 100000000)
    by (unfold days; Z.div_mod_to_equations; lia).
  clearbody days.
  set (z := days + 719468).
  set (era := z / 146097).
  set (doe := z - era * 146097).
  assert (Hera : -680 <= era <= 689) by (unfold era, z; Z.div_mod_to_equations; lia).
  assert (Hdoe : 0 <= doe <= 146096).
  { unfold doe, era. pose proof (Z.mod_pos_bound z 146097 ltac:(lia)) as H.
    rewrite Z.mod_eq in H by lia. lia. }
  clearbody doe. clearbody era.
  set (yoe := (doe - doe / 1460 + doe / 36524 - doe / 146096) / 365).
  assert (Hyoe : 0 <= yoe <= 399) by (unfold yoe; Z.div_mod_to_equations; lia).
  clearbody yoe.
  destruct (_ <=? 2); lia.
Qed.

Lemma shifted_date_shape env created k d :
  shifted_date env created k = Resolved d -> date_only d.
Proof.
  unfold shifted_date.
  destruct (setDate _ created _) as [t|]; cbn; [|discriminate].
  intros [= <-].
  change ("T" ++ time_string t ++ "Z") with (String "T" (time_string t ++ "Z")).
  rewrite date_string_split. apply date_string_shape.
Qed.

(** What [processEntries] makes of a matched time phrase. *)
Definition resolved_as (phrase : string) (due : option string) : Prop :=
  if includes phrase "tomorrow" then exists d, due = Some d /\ date_only d
  else if includes phrase "today" then True
  else if includes phrase "yesterday" || includes phrase "this week"
          || includes phrase "next week"
  then exists d, due = Some d /\ date_only d
  else due = Some phrase.

(** The due date of a task, read against the first time phrase of its
    own text. *)
Definition due_date_shape (t : ExtractedTask) : Prop :=
  match exec timePhrases (toLowerCase (task_text t)) with
  | None => due_date t = None
  | Some phrase => resolved_as phrase (due_date t)
  end.

Lemma resolveDueDate_shape env e p d :
  resolveDueDate env e p = Resolved d -> resolved_as p (Some d).
Proof.
  unfold resolveDueDate, resolved_as.
  destruct (if JsString.truthy (created_at e) then _ else _) as [stamp|];
    cbn; [|discriminate].
  destruct (includes p "tomorrow").
  { intros H. exists d. split; [reflexivity | exact (shifted_date_shape _ _ _ _ H)]. }
  destruct (includes p "today"); [trivial|].
  destruct (includes p "yesterday"); cbn [orb].
  { intros H. exists d. split; [reflexivity | exact (shifted_date_shape _ _ _ _ H)]. }
  destruct (includes p "this week" || includes p "next week").
  { intros H. exists d. split; [reflexivity | exact (shifted_date_shape _ _ _ _ H)]. }
  congruence.
Qed.

Lemma extractTask_due_shape env qe e t :
  extractTask env qe e = Resolved t -> due_date_shape t.
Proof.
  intros H. unfold due_date_shape.
  rewrite (extractTask_text env qe e t H), <- transcript_of_lower.
  pose proof (extractTask_due env qe e t H) as Hd.
  destruct (exec timePhrases (transcript_of e)) as [p|]; [|exact Hd].
  destruct Hd as (d & Hr & ->). exact (resolveDueDate_shape env e p d Hr).
Qed.

(** C1, amended.  The due date of every task of a result is absent when
    no time phrase matches its text; it is a date-only string, YYYY-MM-DD
    (with a sign and six year digits for a year outside 0 to 9999), when
    the first matched phrase contains "tomorrow", or does not contain
    "today" and contains "yesterday", "this week" or "next week"; it is the
    matched phrase itself when the phrase contains none of these words.
    Nothing is said of the phrases that reach the "today" branch. *)
Theorem due_date_shapes :
  forall env entries query res,
    processEntries env entries query = Resolved res ->
    Forall due_date_shape (tasks res).
Proof.
  intros env entries query res H.
  apply processEntries_resolved in H as (qe & ts0 & _ & _ & HF & Ht & _).
  assert (H0 : Forall due_date_shape ts0).
  { eapply Forall2_Forall_r; [exact HF|]. intros e t.
    apply extractTask_due_shape. }
  rewrite Ht. destruct (query_given query); [|exact H0].
  eapply Permutation_Forall; [|exact H0]. symmetry. apply sort_perm.
Qed.

(** A dated phrase, an open phrase and no phrase. *)
Definition dated_fixture : list VoiceEntry :=
  [ entry_of "Book dentist appointment tomorrow" "2025-06-17T00:00:00Z";
    entry_of "finish report by friday" "2025-06-17T00:00:00Z";
    entry_of "Need to call mom" "2025-06-17T00:00:00Z" ].

Lemma due_date_shapes_witness :
  exists res,
    processEntries (offline june17) dated_fixture None = Resolved res /\
    map due_date (tasks res) = [Some "2025-06-18"; Some "by friday"; None] /\
    Forall due_date_shape (tasks res).
Proof.
  eexists. split; [vm_compute; reflexivity|]. split; [reflexivity|].
  apply (due_date_shapes (offline june17) dated_fixture None).
  vm_compute. reflexivity.
Defined.

(* ================================================================== *)
(** * The sort by score *)
(* ================================================================== *)

(** The score a task is sorted by: [task.score || 0]. *)
Definition effective_score (t : ExtractedTask) : float := or_zero (score t).

Section Sorting.
Import Binary64.
Local Open Scope float_scope.

Lemma or_zero_nonnan s : nonnan (or_zero s).
Proof.
  unfold or_zero. destruct s as [x|]; [|reflexivity].
  destruct (JsNumber.truthy x) eqn:E; [|reflexivity].
  unfold JsNumber.truthy, is_nan in E. unfold nonnan.
  destruct (x =? 0); [discriminate|]. cbn in E.
  now destruct (x =? x).
Qed.

Definition key (t : ExtractedTask) : Z * Z * Z := frank (effective_score t).

(** The test of the insertion, on keys. *)
Lemma comparefn_pos x y : (0 <? comparefn x y) = true <-> lex_lt (key x) (key y).
Proof.
  unfold comparefn. rewrite sub_pos_ltb.
  apply ltb_rank; apply or_zero_nonnan.
Qed.

Lemma effective_score_leb a b :
  (effective_score b <=? effective_score a) = true <-> lex_le (key b) (key a).
Proof. apply leb_rank; apply or_zero_nonnan. Qed.

Lemma effective_score_eqb a v :
  (effective_score a =? v) = true -> key a = frank v.
Proof.
  intros H. apply eqb_rank; [apply or_zero_nonnan | | exact H].
  exact (eqb_nonnan_r _ _ H).
Qed.

(** Not before a task of a smaller key. *)
Definition key_ge (a b : ExtractedTask) : Prop := lex_le (key b) (key a).

Lemma insert_sorted_sorted x l :
  StronglySorted key_ge l -> StronglySorted key_ge (insert_sorted x l).
Proof.
  induction l as [|y l IH]; intros Hs; cbn [insert_sorted].
  - repeat constructor.
  - apply StronglySorted_inv in Hs as [Hl Hy].
    destruct (0 <? comparefn x y) eqn:E.
    + apply comparefn_pos in E. constructor; [auto|].
      eapply Permutation_Forall; [symmetry; apply insert_sorted_perm|].
      constructor; [exact (lex_lt_le _ _ E) | exact Hy].
    + assert (Hxy : key_ge x y).
      { apply lex_total. intros Hlt. apply comparefn_pos in Hlt. congruence. }
      constructor; [constructor; assumption|].
      constructor; [exact Hxy|].
      eapply Forall_impl; [exact Hy|].
      intros z Hz. exact (lex_le_trans _ _ _ Hz Hxy).
Qed.

Lemma sort_sorted l : StronglySorted key_ge (sort l).
Proof.
  induction l as [|x l IH]; cbn [sort]; [constructor|].
  now apply insert_sorted_sorted.
Qed.

(** An insertion passes no task of an equal score. *)
Lemma insert_sorted_filter v x l :
  List.filter (fun t => effective_score t =? v) (insert_sorted x l) =
  List.filter (fun t => effective_score t =? v) (x :: l).
Proof.
  induction l as [|y l IH]; cbn [insert_sorted]; [reflexivity|].
  destruct (0 <? comparefn x y) eqn:E; [|reflexivity].
  apply comparefn_pos in E.
  cbn [List.filter] in *. rewrite IH.
  destruct (effective_score x =? v) eqn:Ex; [|reflexivity].
  destruct (effective_score y =? v) eqn:Ey; [|reflexivity].
  apply effective_score_eqb in Ex, Ey. rewrite Ex, Ey in E.
  destruct (lex_lt_irrefl _ E).
Qed.

Lemma sort_filter v l :
  List.filter (fun t => effective_score t =? v) (sort l) =
  List.filter (fun t => effective_score t =? v) l.
Proof.
  induction l as [|x l IH]; cbn [sort]; [reflexivity|].
  rewrite insert_sorted_filter. cbn [List.filter]. now rewrite IH.
Qed.

Lemma unscored_sorted l :
  Forall (fun t => score t = None) l -> StronglySorted key_ge l.
Proof.
  induction 1 as [|x l Hx Hl IH]; constructor; [assumption|].
  eapply Forall_impl; [exact Hl|].
  intros y Hy. unfold key_ge, key, effective_score. rewrite Hx, Hy. now right.
Qed.

Lemma effective_score_self t : (effective_score t =? effective_score t) = true.
Proof. exact (or_zero_nonnan (score t)). Qed.

Lemma effective_score_same_key a b :
  key a = key b -> (effective_score a =? effective_score b) = true.
Proof. intros H. apply eqb_rank; try apply or_zero_nonnan. exact H. Qed.

Lemma lex_le_antisym a b : lex_le a b -> lex_le b a -> a = b.
Proof.
  destruct a as [[a1 a2] a3], b as [[b1 b2] b3]. unfold lex_le, lex_lt.
  intros [H1|H1] [H2|H2]; try congruence. exfalso. lia.
Qed.

(** There is one sorted arrangement that keeps the tasks of each score in
    their order: the result does not depend on the sorting method, as
    long as it is stable. *)
Lemma sorted_stable_unique l1 : forall l2,
  StronglySorted key_ge l1 -> StronglySorted key_ge l2 ->
  (forall v, List.filter (fun t => effective_score t =? v) l1 =
             List.filter (fun t => effective_score t =? v) l2) ->
  l1 = l2.
Proof.
  induction l1 as [|x l1 IH]; intros l2 H1 H2 Hf.
  - destruct l2 as [|y l2]; [reflexivity|].
    specialize (Hf (effective_score y)). cbn [List.filter] in Hf.
    rewrite effective_score_self in Hf. discriminate.
  - apply StronglySorted_inv in H1 as [H1 Hx].
    destruct l2 as [|y l2].
    { specialize (Hf (effective_score x)). cbn [List.filter] in Hf.
      rewrite effective_score_self in Hf. discriminate. }
    apply StronglySorted_inv in H2 as [H2 Hy].
    assert (Hxy : key x = key y).
    { apply lex_le_antisym.
      - (* x occurs in y :: l2 *)
        assert (Hin : In x (List.filter (fun t => effective_score t =? effective_score x)
                                        (y :: l2))).
        { rewrite <- Hf. cbn [List.filter]. rewrite effective_score_self. now left. }
        apply filter_In in Hin as [Hin _].
        destruct Hin as [<-|Hin]; [now right|].
        exact (proj1 (List.Forall_forall _ _) Hy x Hin).
      - assert (Hin : In y (List.filter (fun t => effective_score t =? effective_score y)
                                        (x :: l1))).
        { rewrite Hf. cbn [List.filter]. rewrite effective_score_self. now left. }
        apply filter_In in Hin as [Hin _].
        destruct Hin as [<-|Hin]; [now right|].
        exact (proj1 (List.Forall_forall _ _) Hx y Hin). }
    assert (x = y).
    { pose proof (Hf (effective_score x)) as E. cbn [List.filter] in E.
      rewrite effective_score_self in E.
      rewrite (effective_score_same_key y x (eq_sym Hxy)) in E.
      congruence. }
    subst y. f_equal. apply IH; try assumption.
    intros v. specialize (Hf v). cbn [List.filter] in Hf.
    destruct (effective_score x =? v); congruence.
Qed.

Lemma sort_unique l l' :
  StronglySorted key_ge l' ->
  (forall v, List.filter (fun t => effective_score t =? v) l' =
             List.filter (fun t => effective_score t =? v) l) ->
  l' = sort l.
Proof.
  intros Hs Hf. apply sorted_stable_unique; [assumption | apply sort_sorted |].
  intros v. now rewrite sort_filter.
Qed.

End Sorting.

Lemma StronglySorted_impl {A : Type} (R R' : A -> A -> Prop) l :
  (forall a b, R a b -> R' a b) -> StronglySorted R l -> StronglySorted R' l.
Proof.
  intros HR. induction 1 as [|x l Hl IH Hx]; constructor; [assumption|].
  eapply Forall_impl; [exact Hx|]. auto.
Qed.

(** C7.  Whatever the query, the tasks of a result are in non-increasing
    order of [score || 0], and the tasks of one such score stand in the
    order in which the loop pushed them, which is the order of their
    entries in the input.  (Under a query that is absent or blank nothing
    is sorted and no task has a score.) *)
Theorem tasks_sorted_stable :
  forall env entries query res,
    processEntries env entries query = Resolved res ->
    StronglySorted
      (fun a b => (effective_score b <=? effective_score a)%float = true)
      (tasks res) /\
    exists qe pushed,
      Forall2 (fun e t => extractTask env qe e = Resolved t)
              (List.filter qualifies entries) pushed /\
      Permutation pushed (tasks res) /\
      forall v,
        List.filter (fun t => (effective_score t =? v)%float) (tasks res) =
        List.filter (fun t => (effective_score t =? v)%float) pushed.
Proof.
  intros env entries query res H.
  apply processEntries_resolved in H as (qe & ts0 & Hqe & _ & HF & Ht & _).
  split.
  - apply StronglySorted_impl with (R := key_ge).
    { intros a b Hab. now apply effective_score_leb. }
    rewrite Ht. destruct (query_given query) eqn:Hg; [apply sort_sorted|].
    apply unscored_sorted.
    eapply Forall2_Forall_r; [exact HF|]. intros e t He. cbn beta.
    rewrite (extractTask_score env qe e t He).
    now rewrite (query_embedding_absent env query qe Hg Hqe).
  - exists qe, ts0. split; [exact HF|]. rewrite Ht.
    destruct (query_given query).
    + split; [symmetry; apply sort_perm | intros v; apply sort_filter].
    + split; reflexivity.
Qed.

(** Four tasks, two of them of one score, ranked against a query. *)
Definition ranked_fixture : list VoiceEntry :=
  map (fun '(text, emb) =>
         {| id := "mock-id-1"; transcript_raw := text; transcript_user := text;
            tags_user := ["health"]; created_at := "2025-06-17T00:00:00Z";
            embedding := emb |})
      [ ("Need to email Sarah about the project",
         Some (embed_stub "Need to email Sarah about the project"));
        ("Call the dentist", None);
        ("Book dentist appointment tomorrow", Some (embed_stub "health appointment"));
        ("Buy milk", None) ].

Lemma tasks_sorted_stable_witness :
  exists res,
    processEntries (offline june17) ranked_fixture (Some "health appointment")
      = Resolved res /\
    map task_text (tasks res) =
      [ "Book dentist appointment tomorrow";
        "Need to email Sarah about the project";
        "Call the dentist"; "Buy milk" ] /\
    StronglySorted
      (fun a b => (effective_score b <=? effective_score a)%float = true)
      (tasks res) /\
    exists qe pushed,
      Forall2 (fun e t => extractTask (offline june17) qe e = Resolved t)
              (List.filter qualifies ranked_fixture) pushed /\
      Permutation pushed (tasks res) /\
      forall v,
        List.filter (fun t => (effective_score t =? v)%float) (tasks res) =
        List.filter (fun t => (effective_score t =? v)%float) pushed.
Proof.
  eexists. split; [vm_compute; reflexivity|]. split; [reflexivity|].
  apply (tasks_sorted_stable (offline june17) ranked_fixture
           (Some "health appointment")).
  vm_compute. reflexivity.
Defined.

(* ================================================================== *)
(** * The loop as a whole *)
(* ================================================================== *)

Section Pipeline.
Variable env : Env.

(** The tasks of the qualifying entries, in input order; the first
    failure ends the collection. *)
Fixpoint collect (qe : option (list float)) (entries : list VoiceEntry)
  : outcome (list ExtractedTask) :=
  match entries with
  | [] => Resolved []
  | e :: rest =>
      if qualifies e then
        t ← extractTask env qe e; ts ← collect qe rest; Resolved (t :: ts)
      else collect qe rest
  end.

(** All the tags of the input, in input order. *)
Definition all_tags (entries : list VoiceEntry) : list string :=
  flat_map tags_user entries.

Lemma countTags_app tf a b : countTags tf (a ++ b)%list = countTags (countTags tf a) b.
Proof. unfold countTags. apply fold_left_app. Qed.

(** The loop, in one piece: the tag counts of all the entries, and the
    collected tasks behind the ones it started with. *)
Lemma loop_collect qe entries : forall tf ts,
  loop env qe entries (tf, ts) =
  (new ← collect qe entries;
   Resolved (countTags tf (all_tags entries), (ts ++ new)%list)).
Proof.
  induction entries as [|e es IH]; intros tf ts; cbn [loop collect all_tags flat_map].
  - cbn. now rewrite app_nil_r.
  - unfold step. cbn [fst snd]. rewrite countTags_app.
    destruct (qualifies e).
    + destruct (extractTask env qe e) as [t|err]; cbn; [|reflexivity].
      rewrite IH. fold (all_tags es).
      destruct (collect qe es) as [new|err]; cbn; [|reflexivity].
      now rewrite <- app_assoc.
    + cbn. rewrite IH. reflexivity.
Qed.

Lemma collect_app qe es1 es2 :
  collect qe (es1 ++ es2)%list =
  (ts1 ← collect qe es1; ts2 ← collect qe es2; Resolved (ts1 ++ ts2)%list).
Proof.
  induction es1 as [|e es1 IH]; cbn [collect app].
  - cbn. now destruct (collect qe es2).
  - destruct (qualifies e); [|exact IH].
    destruct (extractTask env qe e) as [t|err]; cbn; [|reflexivity].
    rewrite IH. destruct (collect qe es1) as [ts1|err]; cbn; [|reflexivity].
    now destruct (collect qe es2).
Qed.

Lemma collect_tasks qe entries ts :
  collect qe entries = Resolved ts ->
  Forall2 (fun e t => extractTask env qe e = Resolved t)
          (List.filter qualifies entries) ts.
Proof.
  revert ts. induction entries as [|e es IH]; intros ts; cbn [collect List.filter].
  - intros [= <-]. constructor.
  - destruct (qualifies e); [|apply IH].
    destruct (extractTask env qe e) as [t|err] eqn:Ht; cbn; [|discriminate].
    destruct (collect qe es) as [ts'|err]; cbn; [|discriminate].
    intros [= <-]. constructor; auto.
Qed.

(** The only error inside the loop is the RangeError of [toISOString]. *)
Lemma resolveDueDate_error e p err :
  resolveDueDate env e p = Rejected err -> err = RangeError.
Proof.
  unfold resolveDueDate, shifted_date, toISOString.
  destruct (JsString.truthy (created_at e)); cbn.
  2: destruct (TimeClip (now env)); cbn; [|congruence].
  all: repeat match goal with
         | |- context [if ?b then _ else _] => destruct b
         | |- context [setDate ?z ?d ?k] => destruct (setDate z d k); cbn
         end; congruence.
Qed.

Lemma extractTask_error qe e err :
  extractTask env qe e = Rejected err -> err = RangeError.
Proof.
  unfold extractTask.
  destruct (exec timePhrases (transcript_of e)) as [p|]; cbn; [|discriminate].
  destruct (resolveDueDate env e p) as [d|err'] eqn:E; cbn; [discriminate|].
  intros [= <-]. exact (resolveDueDate_error e p err' E).
Qed.

Lemma collect_error qe entries err :
  collect qe entries = Rejected err -> err = RangeError.
Proof.
  induction entries as [|e es IH]; cbn [collect]; [discriminate|].
  destruct (qualifies e); [|exact IH].
  destruct (extractTask env qe e) as [t|err'] eqn:E; cbn.
  - destruct (collect qe es) as [ts|err'']; cbn; [discriminate|].
    intros [= <-]. now apply IH.
  - intros [= <-]. exact (extractTask_error qe e err' E).
Qed.

(** [processEntries] in one piece. *)
Lemma processEntries_collect entries query :
  processEntries env entries query =
  (qe ← query_embedding env query;
   ts ← collect qe entries;
   let tasks := if query_given query then sort ts else ts in
   Resolved {| summary := summary_of entries tasks query;
               tagFrequencies := countTags ∅ (all_tags entries);
               tasks := tasks |}).
Proof.
  unfold processEntries.
  destruct (query_embedding env query) as [qe|err]; cbn; [|reflexivity].
  rewrite loop_collect. destruct (collect qe entries); reflexivity.
Qed.

End Pipeline.

(* ================================================================== *)
(** * What every result keeps *)
(* ================================================================== *)

(** The closed set of categories. *)
Definition taxonomy : list string := [ "Work"; "Personal"; "Health"; "Home"; "Other" ].

Lemma assignCategory_taxonomy transcript :
  In (assignCategory categories transcript) taxonomy.
Proof.
  unfold categories, taxonomy. cbn [assignCategory].
  repeat match goal with
         | |- context [if existsb ?f ?l then _ else _] => destruct (existsb f l)
         end; cbn; tauto.
Qed.

Lemma extractTask_fixed env qe e t :
  extractTask env qe e = Resolved t ->
  status t = "pending" /\ category t = assignCategory categories (transcript_of e).
Proof.
  unfold extractTask.
  destruct (exec timePhrases (transcript_of e)) as [p|]; cbn.
  - destruct (resolveDueDate env e p); cbn; [|discriminate]. now intros [= <-].
  - now intros [= <-].
Qed.

Lemma Forall2_length_eq {A B : Type} (R : A -> B -> Prop) l1 l2 :
  Forall2 R l1 l2 -> length l1 = length l2.
Proof. induction 1; cbn; congruence. Qed.

(** One task per qualifying entry, no more: the number of tasks is the
    number of entries whose lower-cased user transcript is not empty and
    matches the intent lexicon, never more than the number of entries, and
    these are the two numbers the summary gives. *)
Theorem one_task_per_qualifying_entry :
  forall env entries query res,
    processEntries env entries query = Resolved res ->
    length (tasks res) = length (List.filter qualifies entries) /\
    (length (tasks res) <= length entries)%nat /\
    summary res =
      "Analysed " ++ of_nat (length entries) ++ " entries, extracted "
        ++ of_nat (length (List.filter qualifies entries)) ++ " tasks"
        ++ match query with
           | Some q =>
               if JsString.truthy q
               then " for query " ++ String dquote q ++ String dquote EmptyString
               else ""
           | None => ""
           end.
Proof.
  intros env entries query res H.
  apply processEntries_resolved in H as (qe & ts0 & _ & _ & HF & Ht & Hs).
  assert (Hlen : length (tasks res) = length (List.filter qualifies entries)).
  { rewrite Ht. rewrite (Forall2_length_eq _ _ _ HF).
    destruct (query_given query); [|reflexivity].
    apply Permutation_length, sort_perm. }
  split; [exact Hlen|]. split.
  - rewrite Hlen. apply List.filter_length_le.
  - rewrite Hs. unfold summary_of. now rewrite Hlen.
Qed.

Lemma one_task_per_qualifying_entry_witness :
  exists res,
    processEntries (offline june17) ranked_fixture (Some "health appointment")
      = Resolved res /\
    length (tasks res) = length (List.filter qualifies ranked_fixture) /\
    (length (tasks res) <= length ranked_fixture)%nat /\
    summary res =
      "Analysed " ++ of_nat (length ranked_fixture) ++ " entries, extracted "
        ++ of_nat (length (List.filter qualifies ranked_fixture)) ++ " tasks"
        ++ " for query " ++ String dquote "health appointment"
        ++ String dquote EmptyString.
Proof.
  eexists. split; [vm_compute; reflexivity|].
  apply (one_task_per_qualifying_entry (offline june17) ranked_fixture
           (Some "health appointment")).
  vm_compute. reflexivity.
Defined.

(** Without a query that is given, the tasks stand in the order of their
    entries: the n-th task is made from the n-th qualifying entry, with
    its transcript as text, the status "pending", the category of its
    lower-cased transcript and no score. *)
Theorem tasks_follow_input_order :
  forall env entries query res,
    query_given query = false ->
    processEntries env entries query = Resolved res ->
    Forall2 (fun e t =>
               task_text t = transcript_user e /\
               status t = "pending" /\
               category t = assignCategory categories (transcript_of e) /\
               score t = None)
            (List.filter qualifies entries) (tasks res).
Proof.
  intros env entries query res Hg H.
  apply processEntries_resolved in H as (qe & ts0 & Hqe & _ & HF & Ht & _).
  rewrite Ht, Hg. eapply Forall2_impl; [exact HF|]. intros e t He.
  destruct (extractTask_fixed env qe e t He) as [Hst Hcat].
  repeat split; try assumption.
  - exact (extractTask_text env qe e t He).
  - rewrite (extractTask_score env qe e t He).
    now rewrite (query_embedding_absent env query qe Hg Hqe).
Qed.

Lemma tasks_follow_input_order_witness :
  exists res,
    query_given None = false /\
    processEntries (offline june17) dated_fixture None = Resolved res /\
    Forall2 (fun e t =>
               task_text t = transcript_user e /\
               status t = "pending" /\
               category t = assignCategory categories (transcript_of e) /\
               score t = None)
            (List.filter qualifies dated_fixture) (tasks res).
Proof.
  eexists. split; [reflexivity|]. split; [vm_compute; reflexivity|].
  apply (tasks_follow_input_order (offline june17) dated_fixture None);
    [reflexivity | vm_compute; reflexivity].
Defined.

(** Whatever the query, every task of a result has the status "pending",
    one of the five categories, and a text that is not empty and matches
    the intent lexicon once lower-cased. *)
Theorem task_invariants :
  forall env entries query res,
    processEntries env entries query = Resolved res ->
    Forall (fun t =>
              status t = "pending" /\
              In (category t) taxonomy /\
              JsString.truthy (task_text t) = true /\
              test taskVerbs (toLowerCase (task_text t)) = true)
           (tasks res).
Proof.
  intros env entries query res H.
  apply processEntries_resolved in H as (qe & ts0 & _ & _ & HF & Ht & _).
  assert (H0 : Forall (fun t =>
              status t = "pending" /\ In (category t) taxonomy /\
              JsString.truthy (task_text t) = true /\
              test taskVerbs (toLowerCase (task_text t)) = true) ts0).
  { assert (HF' : Forall2 (fun e t => qualifies e = true /\
                                      extractTask env qe e = Resolved t)
                          (List.filter qualifies entries) ts0).
    { clear Ht. induction entries as [|e es IH] in ts0, HF |- *; cbn in *.
      - inversion HF. constructor.
      - destruct (qualifies e) eqn:Hq; [|now apply IH].
        inversion HF; subst. constructor; [now split | now apply IH]. }
    eapply Forall2_Forall_r; [exact HF'|]. intros e t [Hq He]. cbn beta.
    destruct (extractTask_fixed env qe e t He) as [Hst Hcat].
    rewrite (extractTask_text env qe e t He), Hcat.
    split; [exact Hst|]. split; [apply assignCategory_taxonomy|].
    unfold qualifies in Hq. apply andb_prop in Hq as [Hq1 Hq2].
    rewrite <- transcript_of_lower. split; [|exact Hq2].
    unfold transcript_of in Hq1. now destruct (transcript_user e). }
  rewrite Ht. destruct (query_given query); [|exact H0].
  eapply Permutation_Forall; [|exact H0]. symmetry. apply sort_perm.
Qed.

Lemma task_invariants_witness :
  exists res,
    processEntries (offline june17) ranked_fixture (Some "health appointment")
      = Resolved res /\
    Forall (fun t =>
              status t = "pending" /\
              In (category t) taxonomy /\
              JsString.truthy (task_text t) = true /\
              test taskVerbs (toLowerCase (task_text t)) = true)
           (tasks res).
Proof.
  eexists. split; [vm_compute; reflexivity|].
  apply (task_invariants (offline june17) ranked_fixture (Some "health appointment")).
  vm_compute. reflexivity.
Defined.

(** An invocation is rejected in two ways only: with the error of the
    embedding provider, asked for a query that is not blank, or with the
    RangeError of a date that cannot be written. *)
Theorem rejections :
  forall env entries query err,
    processEntries env entries query = Rejected err ->
    err = RangeError \/
    exists q, query = Some q /\ JsString.truthy (trim q) = true /\
              embed env q = Rejected err.
Proof.
  intros env entries query err. rewrite processEntries_collect.
  unfold query_embedding.
  destruct query as [q|].
  - destruct (query_given (Some q)) eqn:Hg.
    + destruct (embed env q) as [v|err'] eqn:He; cbn.
      * destruct (collect env (Some v) entries) as [ts|err''] eqn:Hc; cbn; [discriminate|].
        intros [= <-]. left. exact (collect_error env _ _ _ Hc).
      * intros [= <-]. right. exists q. repeat split; [|exact He].
        cbn in Hg. now apply andb_prop in Hg as [_ Hg].
    + cbn. destruct (collect env None entries) as [ts|err''] eqn:Hc; cbn; [discriminate|].
      intros [= <-]. left. exact (collect_error env _ _ _ Hc).
  - cbn. destruct (collect env None entries) as [ts|err''] eqn:Hc; cbn; [discriminate|].
    intros [= <-]. left. exact (collect_error env _ _ _ Hc).
Qed.

Lemma rejections_witness :
  processEntries (offline june17) [entry_of "call mom tomorrow" "soon"] None
    = Rejected RangeError /\
  (RangeError = RangeError \/
   exists q, None = Some q /\ JsString.truthy (trim q) = true /\
             embed (offline june17) q = Rejected RangeError).
Proof.
  split; [vm_compute; reflexivity|].
  apply (rejections (offline june17) [entry_of "call mom tomorrow" "soon"] None).
  vm_compute. reflexivity.
Defined.

(* ================================================================== *)
(** * The tag counts *)
(* ================================================================== *)

(** The test a tag passes to be counted: not empty, not blank, and no
    quotation mark in it. *)
Definition well_formed_tag (tag : string) : bool :=
  JsString.truthy tag && JsString.truthy (trim tag)
  && negb (includes tag (String dquote EmptyString)).

(** The names every object inherits from [Object.prototype].  The counts
    are properties of a plain object, and the update reads
    [tagFrequencies[tag]] through the prototype chain: for a tag of one of
    these names it finds the inherited value, not a count. *)
Definition inherited_names : list string :=
  [ "constructor"; "hasOwnProperty"; "isPrototypeOf"; "propertyIsEnumerable";
    "toLocaleString"; "toString"; "valueOf"; "__proto__";
    "__defineGetter__"; "__defineSetter__"; "__lookupGetter__"; "__lookupSetter__" ].

(** No tag of the entries is an inherited name. *)
Definition plain_tags (entries : list VoiceEntry) : Prop :=
  Forall (fun tag => existsb (String.eqb tag) inherited_names = false)
         (flat_map tags_user entries).

(** How often [tag] stands in [tags], as written. *)
Definition occurrences (tag : string) (tags : list string) : nat :=
  length (List.filter (String.eqb tag) tags).

(** The counts of a frequency map, added up. *)
Definition total (m : gmap string nat) : nat :=
  map_fold (fun _ n acc => (n + acc)%nat) 0%nat m.

Lemma countTags_cons (m : gmap string nat) t tags :
  countTags m (t :: tags) =
  countTags (if well_formed_tag t
             then <[t:=(default 0%nat (m !! t) + 1)%nat]> m else m) tags.
Proof. reflexivity. Qed.

Lemma countTags_lookup tags : forall (m : gmap string nat) tag,
  countTags m tags !! tag =
  let n := occurrences tag (List.filter well_formed_tag tags) in
  match m !! tag with
  | Some k => Some (k + n)%nat
  | None => if Nat.eqb n 0 then None else Some n
  end.
Proof.
  induction tags as [|t tags IH]; intros m tag.
  - cbn. destruct (m !! tag); [f_equal; lia | reflexivity].
  - rewrite countTags_cons, IH. cbn [List.filter]. destruct (well_formed_tag t); [|reflexivity].
    unfold occurrences. cbn [List.filter]. destruct (String.eqb_spec tag t) as [->|Hne].
    + rewrite lookup_insert_eq. cbn [length].
      destruct (m !! t) as [k|]; cbn; [f_equal; lia|f_equal; lia].
    + rewrite lookup_insert_ne by congruence. reflexivity.
Qed.

Lemma total_insert (m : gmap string nat) k v :
  total (<[k:=v]> m) = (v + total m - default 0%nat (m !! k))%nat.
Proof.
  unfold total.
  destruct (m !! k) as [x|] eqn:Hk; cbn.
  - rewrite <- insert_delete_eq.
    rewrite map_fold_insert_L; [|intros; lia | apply lookup_delete_eq].
    rewrite (map_fold_delete_L _ _ k x m); [lia | intros; lia | exact Hk].
  - rewrite map_fold_insert_L; [lia | intros; lia | exact Hk].
Qed.

Lemma countTags_total tags : forall m,
  total (countTags m tags) = (total m + length (List.filter well_formed_tag tags))%nat.
Proof.
  induction tags as [|t tags IH]; intros m.
  - cbn. lia.
  - rewrite countTags_cons, IH. cbn [List.filter]. destruct (well_formed_tag t); [|reflexivity].
    rewrite total_insert. cbn [length].
    assert (default 0%nat (m !! t) <= total m)%nat; [|lia].
    destruct (m !! t) as [x|] eqn:Hk; cbn; [|lia].
    unfold total. rewrite (map_fold_delete_L _ _ t x m); [lia | intros; lia | exact Hk].
Qed.

(** The frequency map of a result holds, for every tag, the number of
    times the tag stands among the well-formed tags of all the entries,
    and holds no entry for a tag that never does: in particular none for
    an empty or blank tag or one with a quotation mark.  Tags are counted
    as written (neither trimmed nor case-folded), whether or not their
    entry qualifies as a task, and whatever the query.  (For tags that
    are not names inherited from [Object.prototype].) *)
Theorem tag_frequencies_count :
  forall env entries query res,
    plain_tags entries ->
    processEntries env entries query = Resolved res ->
    forall tag,
      tagFrequencies res !! tag =
      let n := occurrences tag (List.filter well_formed_tag (all_tags entries)) in
      if Nat.eqb n 0 then None else Some n.
Proof.
  intros env entries query res _ H tag. rewrite processEntries_collect in H.
  destruct (query_embedding env query) as [qe|]; cbn in H; [|discriminate].
  destruct (collect env qe entries) as [ts|]; cbn in H; [|discriminate].
  injection H as <-. cbn [tagFrequencies].
  rewrite countTags_lookup. now rewrite lookup_empty.
Qed.

(** Entries with tags: a repeated tag, a blank one, one with a quotation
    mark, and the same word in another case. *)
Definition tagged_fixture : list VoiceEntry :=
  map (fun '(text, tags) =>
         {| id := "mock-id-1"; transcript_raw := text; transcript_user := text;
            tags_user := tags; created_at := "2025-06-17T00:00:00Z";
            embedding := None |})
      [ ("Need to call mom", ["family"; " "; "Family"]);
        ("Had dinner with friends", ["family"; String dquote "dinner"; ""]) ].

Lemma tagged_fixture_plain : plain_tags tagged_fixture.
Proof. repeat constructor. Qed.

Lemma tag_frequencies_count_witness :
  plain_tags tagged_fixture /\
  exists res,
    processEntries (offline june17) tagged_fixture None = Resolved res /\
    map_to_list (tagFrequencies res) ≡ₚ [("family", 2%nat); ("Family", 1%nat)] /\
    forall tag,
      tagFrequencies res !! tag =
      let n := occurrences tag (List.filter well_formed_tag (all_tags tagged_fixture)) in
      if Nat.eqb n 0 then None else Some n.
Proof.
  split; [exact tagged_fixture_plain|].
  eexists. split; [vm_compute; reflexivity|]. split.
  - vm_compute. apply perm_swap || reflexivity.
  - apply (tag_frequencies_count (offline june17) tagged_fixture None).
    + exact tagged_fixture_plain.
    + vm_compute. reflexivity.
Defined.

(** The counts of a result add up to the number of well-formed tags of
    the input (none of them an inherited name). *)
Theorem tag_frequencies_total :
  forall env entries query res,
    plain_tags entries ->
    processEntries env entries query = Resolved res ->
    total (tagFrequencies res) =
    length (List.filter well_formed_tag (all_tags entries)).
Proof.
  intros env entries query res _ H. rewrite processEntries_collect in H.
  destruct (query_embedding env query) as [qe|]; cbn in H; [|discriminate].
  destruct (collect env qe entries) as [ts|]; cbn in H; [|discriminate].
  injection H as <-. cbn [tagFrequencies].
  rewrite countTags_total. unfold total. now rewrite map_fold_empty.
Qed.

Lemma tag_frequencies_total_witness :
  plain_tags tagged_fixture /\
  exists res,
    processEntries (offline june17) tagged_fixture None = Resolved res /\
    total (tagFrequencies res) = 3%nat /\
    total (tagFrequencies res) =
    length (List.filter well_formed_tag (all_tags tagged_fixture)).
Proof.
  split; [exact tagged_fixture_plain|].
  eexists. split; [vm_compute; reflexivity|]. split; [vm_compute; reflexivity|].
  apply (tag_frequencies_total (offline june17) tagged_fixture None).
  - exact tagged_fixture_plain.
  - vm_compute. reflexivity.
Defined.

(* ================================================================== *)
(** * Batches *)
(* ================================================================== *)

Lemma occurrences_app tag a b :
  occurrences tag (a ++ b)%list = (occurrences tag a + occurrences tag b)%nat.
Proof. unfold occurrences. now rewrite List.filter_app, length_app. Qed.

Lemma all_tags_app es1 es2 : all_tags (es1 ++ es2)%list = (all_tags es1 ++ all_tags es2)%list.
Proof. apply flat_map_app. Qed.

(** Two batches handled under one query, put end to end: if each of them
    resolves, so does the whole; its tasks are the tasks of the two (in
    that order when no query is given, sorted together otherwise), and the
    count of every tag is the sum of its two counts (no tag being an
    inherited name). *)
Theorem batches_compose :
  forall env es1 es2 query r1 r2,
    plain_tags (es1 ++ es2)%list ->
    processEntries env es1 query = Resolved r1 ->
    processEntries env es2 query = Resolved r2 ->
    exists r,
      processEntries env (es1 ++ es2)%list query = Resolved r /\
      Permutation (tasks r) (tasks r1 ++ tasks r2)%list /\
      (query_given query = false -> tasks r = (tasks r1 ++ tasks r2)%list) /\
      forall tag,
        default 0%nat (tagFrequencies r !! tag) =
        (default 0%nat (tagFrequencies r1 !! tag)
         + default 0%nat (tagFrequencies r2 !! tag))%nat.
Proof.
  intros env es1 es2 query r1 r2 _ H1 H2.
  rewrite processEntries_collect in H1, H2.
  destruct (query_embedding env query) as [qe|] eqn:Hqe; cbn in H1, H2; [|discriminate].
  destruct (collect env qe es1) as [ts1|] eqn:Hc1; cbn in H1; [|discriminate].
  destruct (collect env qe es2) as [ts2|] eqn:Hc2; cbn in H2; [|discriminate].
  assert (Hr : processEntries env (es1 ++ es2)%list query =
               Resolved {|
                 summary := summary_of (es1 ++ es2)%list
                              (if query_given query then sort (ts1 ++ ts2)%list
                               else (ts1 ++ ts2)%list) query;
                 tagFrequencies := countTags ∅ (all_tags (es1 ++ es2)%list);
                 tasks := if query_given query then sort (ts1 ++ ts2)%list
                          else (ts1 ++ ts2)%list |}).
  { rewrite processEntries_collect, Hqe. cbn. rewrite collect_app, Hc1, Hc2. reflexivity. }
  eexists. split; [exact Hr|].
  injection H1 as <-. injection H2 as <-. cbn [tasks tagFrequencies] in *.
  split; [|split].
  - destruct (query_given query); [|reflexivity].
    rewrite !sort_perm. reflexivity.
  - intros ->. reflexivity.
  - intros tag. rewrite !countTags_lookup, lookup_empty. cbn zeta.
    rewrite all_tags_app, List.filter_app, occurrences_app.
    repeat match goal with
           | |- context [Nat.eqb ?n 0] => destruct (Nat.eqb_spec n 0)
           end; cbn; lia.
Qed.

Lemma batches_compose_witness :
  plain_tags (tagged_fixture ++ dated_fixture)%list /\
  exists r1 r2,
    processEntries (offline june17) tagged_fixture None = Resolved r1 /\
    processEntries (offline june17) dated_fixture None = Resolved r2 /\
    exists r,
      processEntries (offline june17) (tagged_fixture ++ dated_fixture)%list None
        = Resolved r /\
      Permutation (tasks r) (tasks r1 ++ tasks r2)%list /\
      (query_given None = false -> tasks r = (tasks r1 ++ tasks r2)%list) /\
      forall tag,
        default 0%nat (tagFrequencies r !! tag) =
        (default 0%nat (tagFrequencies r1 !! tag)
         + default 0%nat (tagFrequencies r2 !! tag))%nat.
Proof.
  assert (Hplain : plain_tags (tagged_fixture ++ dated_fixture)%list)
    by (repeat constructor).
  split; [exact Hplain|].
  eexists. eexists. split; [vm_compute; reflexivity|]. split; [vm_compute; reflexivity|].
  apply (batches_compose (offline june17) tagged_fixture dated_fixture None);
    [exact Hplain | vm_compute; reflexivity | vm_compute; reflexivity].
Defined.

(* ================================================================== *)
(** * The resolved dates *)
(* ================================================================== *)

(** The days a phrase moves the creation date by, for the phrases that
    are resolved through a [Date]: the branches of the due-date cascade
    other than "today" and the last. *)
Definition day_shift (phrase : string) : option Z :=
  if includes phrase "tomorrow" then Some 1
  else if includes phrase "today" then None
  else if includes phrase "yesterday" then Some (-1)
  else if includes phrase "this week" || includes phrase "next week"
  then Some (if includes phrase "next" then 7 else 0)
  else None.

Lemma resolveDueDate_shift env e p k :
  day_shift p = Some k -> JsString.truthy (created_at e) = true ->
  resolveDueDate env e p = shifted_date env (new_Date env (created_at e)) k.
Proof.
  unfold day_shift, resolveDueDate. intros H ->. cbn.
  destruct (includes p "tomorrow"); [now injection H as <-|].
  destruct (includes p "today"); [discriminate|].
  destruct (includes p "yesterday"); [now injection H as <-|].
  destruct (includes p "this week" || includes p "next week"); [|discriminate].
  now injection H as <-.
Qed.

Lemma date_string_of_day t u : Day t = Day u -> date_string t = date_string u.
Proof.
  intros H. unfold date_string, YearFromTime, MonthFromTime, DateFromTime.
  now rewrite H.
Qed.

Lemma Day_shift t k : Day (t + k * msPerDay) = Day t + k.
Proof. unfold Day, msPerDay. apply Z.div_add. lia. Qed.

Lemma Day_MakeDate d : Day (MakeDate d 0) = d.
Proof. unfold Day, MakeDate, msPerDay. rewrite Z.add_0_r. apply Z.div_mul. lia. Qed.

(** In a zone of constant offset the shifted date is the calendar date
    [k] days after the UTC day of the instant, or a RangeError. *)
Lemma shifted_date_constant_zone env offset t k :
  LocalTZA env = (fun _ _ => offset) ->
  shifted_date env (Some t) k =
  match TimeClip (t + k * msPerDay) with
  | Some _ => Resolved (date_string (MakeDate (Day t + k) 0))
  | None => Rejected RangeError
  end.
Proof.
  intros Hz. unfold shifted_date. rewrite Hz, setDate_shift.
  destruct (TimeClip (t + k * msPerDay)) as [u|] eqn:Hu; cbn; [|reflexivity].
  change ("T" ++ time_string u ++ "Z") with (String "T" (time_string u ++ "Z")).
  rewrite date_string_split. f_equal. apply date_string_of_day.
  unfold TimeClip in Hu. destruct (Z.abs _ <=? _); [|discriminate].
  injection Hu as <-. now rewrite Day_shift, Day_MakeDate.
Qed.

Lemma shifted_date_invalid env k : shifted_date env None k = Rejected RangeError.
Proof. reflexivity. Qed.

Lemma collect_rejects env qe entries e err :
  In e entries -> qualifies e = true -> extractTask env qe e = Rejected err ->
  exists err', collect env qe entries = Rejected err'.
Proof.
  intros Hin Hq He. induction entries as [|x es IH]; [destruct Hin|].
  cbn [collect]. destruct Hin as [->|Hin].
  - rewrite Hq, He. cbn. eauto.
  - destruct (IH Hin) as [err' Hc].
    destruct (qualifies x); [|eauto].
    destruct (extractTask env qe x); cbn; [|eauto].
    rewrite Hc. cbn. eauto.
Qed.

Lemma collect_In env qe entries ts e :
  collect env qe entries = Resolved ts -> In e entries -> qualifies e = true ->
  exists t, In t ts /\ extractTask env qe e = Resolved t.
Proof.
  intros Hc Hin Hq. apply collect_tasks in Hc.
  assert (Hf : In e (List.filter qualifies entries)) by (apply filter_In; now split).
  exact (Forall2_In_l _ _ _ _ Hc Hf).
Qed.

(** The dated phrases.  In a zone of constant offset, for a qualifying
    entry whose creation timestamp is read as the instant [t], the due
    date of a first phrase with "tomorrow" in it is the UTC calendar date
    of [t] plus one day; it is that date minus one day for "yesterday",
    the date itself for "this week" and the date plus seven days for
    "next week" (when no earlier branch takes the phrase). *)
Theorem dated_phrase_resolution :
  forall env entries query res e p k offset t,
    processEntries env entries query = Resolved res ->
    In e entries -> qualifies e = true ->
    exec timePhrases (transcript_of e) = Some p ->
    day_shift p = Some k ->
    LocalTZA env = (fun _ _ => offset) ->
    JsString.truthy (created_at e) = true ->
    new_Date env (created_at e) = Some t ->
    exists task,
      In task (tasks res) /\ task_text task = transcript_user e /\
      due_date task = Some (date_string (MakeDate (Day t + k) 0)).
Proof.
  intros env entries query res e p k offset t H Hin Hq Hm Hk Hz Hc Ht.
  rewrite processEntries_collect in H.
  destruct (query_embedding env query) as [qe|]; cbn in H; [|discriminate].
  destruct (collect env qe entries) as [ts|] eqn:Hcol; cbn in H; [|discriminate].
  injection H as <-. cbn [tasks].
  destruct (collect_In env qe entries ts e Hcol Hin Hq) as (task & Hint & He).
  exists task. split; [|split].
  - destruct (query_given query); [|exact Hint].
    apply Permutation_in with ts; [symmetry; apply sort_perm | exact Hint].
  - exact (extractTask_text env qe e task He).
  - pose proof (extractTask_due env qe e task He) as Hd. rewrite Hm in Hd.
    destruct Hd as (d & Hr & ->). f_equal.
    rewrite (resolveDueDate_shift env e p k Hk Hc), Ht in Hr.
    rewrite (shifted_date_constant_zone env offset t k Hz) in Hr.
    destruct (TimeClip (t + k * msPerDay)); congruence.
Qed.

Lemma dated_phrase_resolution_witness :
  let e := entry_of "Book dentist appointment next week" "2025-06-27T09:30:00Z" in
  exists res,
    processEntries (offline june17) [e] None = Resolved res /\
    In e [e] /\ qualifies e = true /\
    exec timePhrases (transcript_of e) = Some "next week" /\
    day_shift "next week" = Some 7 /\
    LocalTZA (offline june17) = (fun _ _ => 0) /\
    JsString.truthy (created_at e) = true /\
    new_Date (offline june17) (created_at e) = Some 1751016600000 /\
    date_string (MakeDate (Day 1751016600000 + 7) 0) = "2025-07-04" /\
    exists task,
      In task (tasks res) /\ task_text task = transcript_user e /\
      due_date task = Some (date_string (MakeDate (Day 1751016600000 + 7) 0)).
Proof.
  intros e. eexists.
  split; [vm_compute; reflexivity|]. split; [left; reflexivity|].
  split; [vm_compute; reflexivity|]. split; [vm_compute; reflexivity|].
  split; [reflexivity|]. split; [reflexivity|]. split; [reflexivity|].
  split; [vm_compute; reflexivity|]. split; [vm_compute; reflexivity|].
  apply (dated_phrase_resolution (offline june17) [e] None _ e "next week" 7 0
           1751016600000);
    try (vm_compute; reflexivity); try reflexivity. left; reflexivity.
Defined.

(** One unreadable timestamp fails the whole invocation.  If a qualifying
    entry has a first phrase that is resolved through a [Date] and a
    creation timestamp that is not empty and is read as the invalid date,
    there is no result, whatever the other entries are: the invocation is
    rejected, with a RangeError when no query is given. *)
Theorem unreadable_timestamp_rejects :
  forall env entries query e p k,
    In e entries -> qualifies e = true ->
    exec timePhrases (transcript_of e) = Some p ->
    day_shift p = Some k ->
    JsString.truthy (created_at e) = true ->
    new_Date env (created_at e) = None ->
    exists err,
      processEntries env entries query = Rejected err /\
      (query_given query = false -> err = RangeError).
Proof.
  intros env entries query e p k Hin Hq Hm Hk Hc Hd.
  assert (He : forall qe, extractTask env qe e = Rejected RangeError).
  { intros qe. unfold extractTask. rewrite Hm.
    rewrite (resolveDueDate_shift env e p k Hk Hc), Hd. reflexivity. }
  rewrite processEntries_collect.
  destruct (query_embedding env query) as [qe|err] eqn:Hqe; cbn.
  - destruct (collect_rejects env qe entries e _ Hin Hq (He qe)) as [err' Hr].
    rewrite Hr. cbn. exists err'. split; [reflexivity|].
    intros _. exact (collect_error env qe entries err' Hr).
  - exists err. split; [reflexivity|]. intros Hg. exfalso.
    unfold query_embedding in Hqe. rewrite Hg in Hqe. now destruct query.
Qed.

Lemma unreadable_timestamp_rejects_witness :
  let e := entry_of "call mom tomorrow" "17/06/2025" in
  let entries := [entry_of "Need to call mom" "2025-06-17T00:00:00Z"; e] in
  In e entries /\ qualifies e = true /\
  exec timePhrases (transcript_of e) = Some "tomorrow" /\
  day_shift "tomorrow" = Some 1 /\
  JsString.truthy (created_at e) = true /\
  new_Date (offline june17) (created_at e) = None /\
  exists err,
    processEntries (offline june17) entries None = Rejected err /\
    (query_given None = false -> err = RangeError).
Proof.
  intros e entries.
  split; [right; left; reflexivity|]. split; [vm_compute; reflexivity|].
  split; [vm_compute; reflexivity|]. split; [reflexivity|].
  split; [reflexivity|]. split; [vm_compute; reflexivity|].
  apply (unreadable_timestamp_rejects (offline june17) entries None e "tomorrow" 1);
    try (vm_compute; reflexivity); try reflexivity. right; left; reflexivity.
Defined.

Lemma collect_resolves env qe entries :
  Forall (fun e => qualifies e = true -> exists t, extractTask env qe e = Resolved t)
         entries ->
  exists ts, collect env qe entries = Resolved ts.
Proof.
  induction 1 as [|e es He _ IH]; cbn [collect]; [eauto|].
  destruct IH as [ts Hts]. destruct (qualifies e); [|eauto].
  destruct (He eq_refl) as [t Ht]. rewrite Ht, Hts. cbn. eauto.
Qed.

(** Well-formed timestamps never fail.  In a zone of constant offset, if
    every entry has a creation timestamp that is not empty and is read as
    an instant at least seven days inside the range of time values, then
    an invocation without a given query resolves, and so does one with a
    query on which the embedding provider resolves. *)
Theorem readable_timestamps_resolve :
  forall env entries query offset,
    LocalTZA env = (fun _ _ => offset) ->
    Forall (fun e =>
              JsString.truthy (created_at e) = true /\
              exists t, Date_parse env (created_at e) = Some t /\
                        Z.abs t <= 8640000000000000 - 7 * msPerDay)
           entries ->
    (forall q, query = Some q -> exists v, embed env q = Resolved v) ->
    exists res, processEntries env entries query = Resolved res.
Proof.
  intros env entries query offset Hz Hall Hemb.
  rewrite processEntries_collect.
  assert (Hqe : exists qe, query_embedding env query = Resolved qe).
  { unfold query_embedding. destruct query as [q|]; [|eauto].
    destruct (query_given (Some q)); [|eauto].
    destruct (Hemb q eq_refl) as [v ->]. cbn. eauto. }
  destruct Hqe as [qe ->]. cbn.
  destruct (collect_resolves env qe entries) as [ts ->]; [|cbn; eauto].
  eapply Forall_impl; [exact Hall|]. intros e (Hc & t & Hp & Ht) _.
  unfold extractTask.
  destruct (exec timePhrases (transcript_of e)) as [p|]; cbn; [|eauto].
  assert (Hr : exists d, resolveDueDate env e p = Resolved d); [|destruct Hr as [d ->]; cbn; eauto].
  destruct (day_shift p) as [k|] eqn:Hk.
  - rewrite (resolveDueDate_shift env e p k Hk Hc).
    assert (Hk7 : -1 <= k <= 7).
    { unfold day_shift in Hk. destruct (includes p "next").
      all: repeat match type of Hk with
             | (if ?b then _ else _) = _ => destruct b
             end; try discriminate; injection Hk as <-; lia. }
    assert (Hnew : new_Date env (created_at e) = Some t).
    { unfold new_Date. rewrite Hp. cbn. unfold TimeClip.
      replace (Z.abs t <=? 8640000000000000) with true; [reflexivity|].
      symmetry. apply Z.leb_le. unfold msPerDay in Ht. lia. }
    rewrite Hnew, (shifted_date_constant_zone env offset t k Hz).
    unfold TimeClip.
    replace (Z.abs (t + k * msPerDay) <=? 8640000000000000) with true; [eauto|].
    symmetry. apply Z.leb_le. unfold msPerDay in *. lia.
  - unfold resolveDueDate. rewrite Hc. cbn. unfold day_shift in Hk.
    destruct (includes p "tomorrow"); [discriminate|].
    destruct (includes p "today"); [eauto|].
    destruct (includes p "yesterday"); [discriminate|].
    destruct (includes p "this week" || includes p "next week"); [discriminate|eauto].
Qed.

Lemma readable_timestamps_resolve_witness :
  LocalTZA (offline june17) = (fun _ _ => 0) /\
  Forall (fun e =>
            JsString.truthy (created_at e) = true /\
            exists t, Date_parse (offline june17) (created_at e) = Some t /\
                      Z.abs t <= 8640000000000000 - 7 * msPerDay)
         dated_fixture /\
  (forall q, Some "health appointment" = Some q ->
             exists v, embed (offline june17) q = Resolved v) /\
  exists res,
    processEntries (offline june17) dated_fixture (Some "health appointment")
      = Resolved res.
Proof.
  assert (H1 : Forall (fun e =>
            JsString.truthy (created_at e) = true /\
            exists t, Date_parse (offline june17) (created_at e) = Some t /\
                      Z.abs t <= 8640000000000000 - 7 * msPerDay)
         dated_fixture).
  { repeat constructor; exists june17; (split; [vm_compute; reflexivity|]);
      unfold june17, msPerDay; lia. }
  assert (H2 : forall q, Some "health appointment" = Some q ->
             exists v, embed (offline june17) q = Resolved v)
    by (intros q _; cbn; eauto).
  split; [reflexivity|]. split; [exact H1|]. split; [exact H2|].
  exact (readable_timestamps_resolve (offline june17) dated_fixture
           (Some "health appointment") 0 eq_refl H1 H2).
Defined.

(* ================================================================== *)
(** * The clock *)
(* ================================================================== *)

(** The same host at another time. *)
Definition at_clock (env : Env) (clock : Z) : Env := {|
  now := clock;
  LocalTZA := LocalTZA env;
  Date_parse := Date_parse env;
  embed := embed env
|}.

Lemma collect_at_clock env clock qe entries :
  Forall (fun e => JsString.truthy (created_at e) = true) entries ->
  collect (at_clock env clock) qe entries = collect env qe entries.
Proof.
  induction 1 as [|e es He _ IH]; cbn [collect]; [reflexivity|].
  rewrite IH. destruct (qualifies e); [|reflexivity].
  replace (extractTask (at_clock env clock) qe e) with (extractTask env qe e);
    [reflexivity|].
  unfold extractTask.
  destruct (exec timePhrases (transcript_of e)) as [p|]; [|reflexivity].
  unfold resolveDueDate. rewrite He. reflexivity.
Qed.

(** The clock is read for an empty creation timestamp only: when every
    entry has a creation timestamp that is not empty, the outcome of an
    invocation is the same at every time. *)
Theorem clock_only_for_empty_timestamps :
  forall env clock entries query,
    Forall (fun e => JsString.truthy (created_at e) = true) entries ->
    processEntries (at_clock env clock) entries query =
    processEntries env entries query.
Proof.
  intros env clock entries query H.
  rewrite !processEntries_collect.
  change (query_embedding (at_clock env clock) query) with (query_embedding env query).
  destruct (query_embedding env query) as [qe|]; cbn; [|reflexivity].
  now rewrite collect_at_clock.
Qed.

Lemma clock_only_for_empty_timestamps_witness :
  Forall (fun e => JsString.truthy (created_at e) = true) dated_fixture /\
  processEntries (at_clock (offline june17) (june17 + 30 * msPerDay)) dated_fixture None =
  processEntries (offline june17) dated_fixture None.
Proof.
  assert (H : Forall (fun e => JsString.truthy (created_at e) = true) dated_fixture)
    by (repeat constructor).
  split; [exact H|].
  exact (clock_only_for_empty_timestamps (offline june17) (june17 + 30 * msPerDay)
           dated_fixture None H).
Defined.

(* ================================================================== *)
(** * Substrings *)
(* ================================================================== *)

Lemma starts_with_iff p s :
  starts_with p s = true <-> exists post, s = p ++ post.
Proof.
  revert s. induction p as [|a p IH]; intros s; cbn.
  - split; [intros _; now exists s | reflexivity].
  - destruct s as [|b s].
    + split; [discriminate | intros [post [=]]].
    + rewrite andb_true_iff, IH. split.
      * intros [Hab [post ->]]. apply Ascii.eqb_eq in Hab. subst. now exists post.
      * intros [post [= -> ->]]. split; [apply Ascii.eqb_refl | now exists post].
Qed.

(** [s.includes(sub)]: [sub] stands somewhere in [s]. *)
Lemma includes_iff s sub :
  includes s sub = true <-> exists pre post, s = pre ++ sub ++ post.
Proof.
  induction s as [|c s IH].
  - cbn [includes]. rewrite orb_false_r, starts_with_iff. split.
    + intros [post H]. now exists "", post.
    + intros (pre & post & H). destruct pre; [now exists post|discriminate].
  - cbn [includes]. rewrite orb_true_iff, starts_with_iff, IH. split.
    + intros [[post H]|(pre & post & ->)].
      * now exists "", post.
      * now exists (String c pre), post.
    + intros (pre & post & H). destruct pre as [|d pre].
      * left. now exists post.
      * right. injection H as -> ->. now exists pre, post.
Qed.

Lemma string_app_assoc (a b c : string) : (a ++ b) ++ c = a ++ b ++ c.
Proof.
  induction a as [|x a IH]; [reflexivity|].
  change (String x ((a ++ b) ++ c) = String x (a ++ b ++ c)). now rewrite IH.
Qed.

Lemma includes_trans s a b :
  includes s a = true -> includes a b = true -> includes s b = true.
Proof.
  rewrite !includes_iff. intros (p1 & q1 & ->) (p2 & q2 & ->).
  exists (p1 ++ p2), (q2 ++ q1). now rewrite !string_app_assoc.
Qed.

(* ================================================================== *)
(** * The categories *)
(* ================================================================== *)

(** A keyword of the category occurs in the transcript. *)
Definition mentions (cat : string) (transcript : string) : bool :=
  match List.find (fun '(c, _) => String.eqb c cat) categories with
  | Some (_, keywords) => existsb (fun keyword => includes transcript keyword) keywords
  | None => false
  end.

(** The category is that of the first list, in the order Work, Personal,
    Health, Home, with a keyword anywhere in the transcript, as a
    substring; it is Other exactly when no keyword of any list occurs. *)
Theorem category_by_first_keyword :
  forall transcript,
    let cat := assignCategory categories transcript in
    (cat = "Work" <-> mentions "Work" transcript = true) /\
    (cat = "Personal" <->
       mentions "Work" transcript = false /\ mentions "Personal" transcript = true) /\
    (cat = "Health" <->
       mentions "Work" transcript = false /\ mentions "Personal" transcript = false /\
       mentions "Health" transcript = true) /\
    (cat = "Home" <->
       mentions "Work" transcript = false /\ mentions "Personal" transcript = false /\
       mentions "Health" transcript = false /\ mentions "Home" transcript = true) /\
    (cat = "Other" <->
       forall c keywords keyword,
         In (c, keywords) categories -> In keyword keywords ->
         includes transcript keyword = false).
Proof.
  intros transcript cat. subst cat.
  unfold mentions. cbn [List.find categories String.eqb Ascii.eqb Bool.eqb].
  cbn [assignCategory categories].
  set (w := existsb _ (_ :: _)).
  set (p := existsb _ (_ :: _)).
  set (h := existsb _ (_ :: _)).
  set (m := existsb _ (_ :: _)).
  assert (Hother : (w = false /\ p = false /\ h = false /\ m = false) <->
                   forall c keywords keyword,
                     In (c, keywords) categories -> In keyword keywords ->
                     includes transcript keyword = false).
  { split.
    - intros (Hw & Hp & Hh & Hm) c keywords keyword Hc Hk.
      assert (Hnone : forall kws, existsb (fun k => includes transcript k) kws = false ->
                                  In keyword kws -> includes transcript keyword = false).
      { intros kws He Hin. destruct (includes transcript keyword) eqn:E; [|reflexivity].
        rewrite <- He. symmetry. apply existsb_exists. eauto. }
      cbn in Hc. destruct Hc as [[= <- <-]|[[= <- <-]|[[= <- <-]|[[= <- <-]|[[= <- <-]|[]]]]]];
        [exact (Hnone _ Hw Hk) | exact (Hnone _ Hp Hk) | exact (Hnone _ Hh Hk)
         | exact (Hnone _ Hm Hk) | destruct Hk].
    - intros H.
      assert (Hall : forall c kws, In (c, kws) categories ->
                                   existsb (fun k => includes transcript k) kws = false).
      { intros c kws Hc. destruct (existsb _ kws) eqn:E; [|reflexivity].
        apply existsb_exists in E as (k & Hk & Hi). now rewrite (H c kws k Hc Hk) in Hi. }
      repeat split;
        [apply (Hall "Work") | apply (Hall "Personal")
         | apply (Hall "Health") | apply (Hall "Home")]; cbn; tauto. }
  rewrite <- Hother. clearbody w p h m.
  destruct w, p, h, m; cbn; repeat split; intros; try discriminate;
    try tauto; try (destruct_and?; discriminate).
Qed.

(** A keyword that contains a keyword of an earlier list never decides:
    "workout", a Health keyword, contains "work", so a transcript with
    "workout" in it is classified Work. *)
Theorem workout_is_work :
  forall transcript,
    includes transcript "workout" = true ->
    assignCategory categories transcript = "Work".
Proof.
  intros transcript H.
  assert (Hw : includes transcript "work" = true)
    by (apply includes_trans with "workout"; [exact H | reflexivity]).
  cbn [assignCategory categories existsb]. rewrite Hw.
  now rewrite !orb_true_r.
Qed.

Lemma workout_is_work_witness :
  includes "start a workout plan" "workout" = true /\
  assignCategory categories "start a workout plan" = "Work".
Proof.
  split; [reflexivity|]. apply (workout_is_work "start a workout plan"). reflexivity.
Defined.

(* ================================================================== *)
(** * The cosine similarity *)
(* ================================================================== *)

Section Cosine.
Local Open Scope float_scope.

Lemma SFmul_comm x y : SF64mul x y = SF64mul y x.
Proof.
  unfold SF64mul.
  destruct x as [sx|sx| |sx mx ex], y as [sy|sy| |sy my ey]; cbn [SFmul];
    try reflexivity; rewrite ?(xorb_comm sy sx); try reflexivity.
  now rewrite (Pos.mul_comm my mx), (Z.add_comm ey ex).
Qed.

Lemma float_mul_comm (x y : float) : x * y = y * x.
Proof.
  apply Prim2SF_inj. rewrite !mul_spec. apply SFmul_comm.
Qed.

Lemma reduce_dot_comm a : forall b sum,
  length a = length b -> reduce_dot sum a b = reduce_dot sum b a.
Proof.
  induction a as [|x a IH]; intros [|y b] sum Hl; try discriminate; [reflexivity|].
  cbn [reduce_dot]. rewrite (float_mul_comm x y). apply IH. now injection Hl.
Qed.

(** The score does not depend on which of the two vectors is the query:
    the products and the sums are taken in the same order either way. *)
Theorem cosineSimilarity_symmetric :
  forall a b, cosineSimilarity a b = cosineSimilarity b a.
Proof.
  intros a b. unfold cosineSimilarity.
  destruct (Nat.eqb_spec (length a) (length b)) as [Hl|Hl].
  - rewrite <- Hl, Nat.eqb_refl. cbn [negb orb].
    destruct (Nat.eqb (length a) 0); [reflexivity|].
    rewrite (reduce_dot_comm a b 0 Hl).
    rewrite (orb_comm (sqrt (reduce_squares b) =? 0)).
    now rewrite (float_mul_comm (sqrt (reduce_squares a))).
  - destruct (Nat.eqb_spec (length b) (length a)) as [Hl'|_]; [congruence|reflexivity].
Qed.

(** A component that is zero, of either sign. *)
Definition is_zero (x : float) : bool := (x =? 0).

Lemma is_zero_cases x : is_zero x = true -> x = 0 \/ x = (-0).
Proof.
  unfold is_zero. rewrite FloatAxioms.eqb_spec. intros H.
  assert (Hs : exists s, Prim2SF x = S754_zero s).
  { destruct (Prim2SF x) as [s|s| |s m e];
      [eauto | destruct s; discriminate | discriminate | destruct s; discriminate]. }
  destruct Hs as [s Hs]. rewrite <- (SF2Prim_Prim2SF x), Hs.
  destruct s; [right|left]; reflexivity.
Qed.

Lemma fold_squares_zero a : forall acc,
  acc = 0 -> forallb is_zero a = true ->
  fold_left (fun sum val => sum + val * val) a acc = 0.
Proof.
  induction a as [|x a IH]; intros acc -> Ha; [reflexivity|].
  cbn in Ha. apply andb_prop in Ha as [Hx Ha]. cbn [fold_left].
  apply IH; [|exact Ha].
  destruct (is_zero_cases x Hx) as [->| ->]; reflexivity.
Qed.

Lemma reduce_squares_zero a : forallb is_zero a = true -> reduce_squares a = 0.
Proof. intros H. exact (fold_squares_zero a 0 eq_refl H). Qed.

(** The degenerate inputs give 0, not NaN: vectors of different lengths,
    empty vectors, and a vector whose components are all zero. *)
Theorem cosineSimilarity_degenerate :
  forall a b,
    length a <> length b \/ a = [] \/ forallb is_zero a = true
      \/ forallb is_zero b = true ->
    cosineSimilarity a b = 0.
Proof.
  intros a b H. unfold cosineSimilarity.
  destruct (Nat.eqb_spec (length a) (length b)) as [Hl|Hl]; [|reflexivity].
  cbn [negb orb]. destruct (Nat.eqb (length a) 0) eqn:Ha; [reflexivity|].
  destruct H as [H|[->|[H|H]]]; [contradiction | discriminate | |].
  - cbv zeta. rewrite (reduce_squares_zero a H).
    change (sqrt 0 =? 0) with true. now rewrite orb_true_r.
  - cbv zeta. rewrite (reduce_squares_zero b H). reflexivity.
Qed.

Lemma cosineSimilarity_degenerate_witness :
  (length [1; 2] <> length (embed_stub "health") \/ [1; 2] = []
   \/ forallb is_zero [1; 2] = true \/ forallb is_zero (embed_stub "health") = true) /\
  cosineSimilarity [1; 2] (embed_stub "health") = 0.
Proof.
  assert (H : length [1; 2] <> length (embed_stub "health") \/ [1; 2] = []
   \/ forallb is_zero [1; 2] = true \/ forallb is_zero (embed_stub "health") = true)
    by (left; cbn; discriminate).
  split; [exact H|]. exact (cosineSimilarity_degenerate [1; 2] (embed_stub "health") H).
Defined.

End Cosine.

(* ================================================================== *)
(** * The fixture loader (src/template/src/lib/mockData.ts) *)
(* ================================================================== *)

Module Csv.

(** The line feed, code unit 10. *)
Definition newline : ascii := chr 10.

(** [s.split(sep)] for a one-character separator: never empty, one piece
    more than there are separators. *)
Fixpoint split (sep : ascii) (s : string) : list string :=
  match s with
  | EmptyString => [EmptyString]
  | String c s' =>
      if Ascii.eqb c sep then EmptyString :: split sep s'
      else match split sep s' with
           | piece :: rest => String c piece :: rest
           | [] => [String c EmptyString]
           end
  end.

(** [list.indexOf(x)]: the first index of [x], or -1. *)
Fixpoint indexOf_from (i : Z) (x : string) (l : list string) : Z :=
  match l with
  | [] => -1
  | y :: l' => if String.eqb y x then i else indexOf_from (i + 1) x l'
  end.

Definition indexOf (x : string) (l : list string) : Z := indexOf_from 0 x l.

(** [values[idx]] under the guard [idx >= 0 && idx < values.length]. *)
Definition cell (idx : Z) (values : list string) : option string :=
  if (0 <=? idx) && (idx <? Z.of_nat (length values))
  then nth_error values (Z.to_nat idx)
  else None.

(** A parsed row: the entry as [processEntries] reads it, and the other
    columns that are parsed.  (The fields that are the same constant on
    every row, [user_id], the languages and the nulls, are left out.) *)
Record CsvEntry : Type := {
  voice : VoiceEntry;
  tags_model : list string;
  updated_at : string;
  emotion_score_score : option float
}.

Section Loader.
Variable env : Env.
(** [Number] and [parseFloat] of the host, on strings. *)
Variable Number : string -> float.
Variable parseFloat : string -> float.

(** [new Date().toISOString()]. *)
Definition clock_stamp : outcome string := toISOString (TimeClip (now env)).

(** [values[i] ? values[i].split(';').filter(tag => tag.trim()) : []]. *)
Definition tags_of (v : option string) : list string :=
  match v with
  | Some v =>
      if JsString.truthy v
      then List.filter (fun tag => JsString.truthy (trim tag)) (split ";" v)
      else []
  | None => []
  end.

(** [values[i] || new Date().toISOString()] under the guard; the initial
    empty string when the guard fails. *)
Definition stamp_of (v : option string) : outcome string :=
  match v with
  | Some v => if JsString.truthy v then Resolved v else clock_stamp
  | None => Resolved ""
  end.

(** One round of the loop over the lines, for the line of index [i]. *)
Definition parseLine (headers : list string) (i : nat) (line : string)
  : outcome CsvEntry :=
  let values := map trim (split "," line) in
  let column name := cell (indexOf name headers) values in
  let transcript_raw := default "" (column "transcript_raw") in
  let transcript_user := default "" (column "transcript_user") in
  let tags_model := tags_of (column "tags_model") in
  let tags_user := tags_of (column "tags_user") in
  let emotion := match column "emotion_score_score" with
                 | Some v => if JsString.truthy v then Some (parseFloat v) else None
                 | None => None
                 end in
  created ← stamp_of (column "created_at");
  updated ← stamp_of (column "updated_at");
  let embedding := match column "embedding" with
                   | Some v =>
                       if JsString.truthy v then Some (map Number (split "," v))
                       else None
                   | None => None
                   end in
  created ← (if JsString.truthy created then Resolved created else clock_stamp);
  updated ← (if JsString.truthy updated then Resolved updated else clock_stamp);
  embedding ← match embedding with
              | Some e => Resolved (Some e)
              | None =>
                  if JsString.truthy transcript_user
                  then v ← embed env transcript_user; Resolved (Some v)
                  else Resolved None
              end;
  Resolved {|
    voice := {| id := "mock-id-" ++ of_nat i;
                transcript_raw := transcript_raw;
                transcript_user := transcript_user;
                tags_user := tags_user;
                created_at := created;
                embedding := embedding |};
    tags_model := tags_model;
    updated_at := updated;
    emotion_score_score := emotion
  |}.

Fixpoint parseRows (headers : list string) (i : nat) (rows : list string)
  : outcome (list CsvEntry) :=
  match rows with
  | [] => Resolved []
  | line :: rest =>
      entry ← parseLine headers i line;
      entries ← parseRows headers (S i) rest;
      Resolved (entry :: entries)
  end.

Definition parseCsv (csvContent : string) : outcome (list CsvEntry) :=
  let lines := split newline (trim csvContent) in
  if (length lines <? 2)%nat then Resolved []
  else
    match lines with
    | header :: rows => parseRows (map trim (split "," header)) 1 rows
    | [] => Resolved []
    end.

(** The exported entries, for the content of the file (the empty string
    when the file cannot be read). *)
Definition mockVoiceEntries (csvData : string) : outcome (list VoiceEntry) :=
  entries ← parseCsv csvData; Resolved (map voice entries).

End Loader.

End Csv.

(* ================================================================== *)
(** * What the loader keeps *)
(* ================================================================== *)

Section LoaderFacts.
Import Csv.

(** The character occurs in the string. *)
Definition has (c : ascii) (s : string) : bool := includes s (String c EmptyString).

Lemma has_cons c d s : has c (String d s) = Ascii.eqb c d || has c s.
Proof. unfold has. cbn [includes starts_with]. now rewrite andb_true_r. Qed.

Lemma has_empty c : has c "" = false.
Proof. reflexivity. Qed.

Lemma trimStart_has c s : has c (trimStart s) = true -> has c s = true.
Proof.
  induction s as [|d s IH]; cbn [trimStart]; [trivial|].
  destruct (is_space d); [|trivial].
  intros H. rewrite has_cons, (IH H). apply orb_true_r.
Qed.

Lemma rev_acc_has c s : forall acc, has c (rev_acc s acc) = has c s || has c acc.
Proof.
  induction s as [|d s IH]; intros acc; cbn [rev_acc]; [reflexivity|].
  rewrite IH, !has_cons. now destruct (Ascii.eqb c d), (has c s), (has c acc).
Qed.

Lemma rev_has c s : has c (JsString.rev s) = has c s.
Proof. unfold JsString.rev. rewrite rev_acc_has, has_empty. apply orb_false_r. Qed.

(** Trimming brings no character in. *)
Lemma trim_has c s : has c (trim s) = true -> has c s = true.
Proof.
  unfold trim. rewrite rev_has. intros H%trimStart_has.
  rewrite rev_has in H. now apply trimStart_has.
Qed.

Lemma split_not_nil sep s : split sep s <> [].
Proof.
  destruct s as [|c s]; cbn [split]; [discriminate|].
  destruct (Ascii.eqb c sep); [discriminate|].
  destruct (split sep s); discriminate.
Qed.

(** No piece of a split holds the separator. *)
Lemma split_pieces sep s : Forall (fun piece => has sep piece = false) (split sep s).
Proof.
  induction s as [|c s IH]; cbn [split]; [repeat constructor|].
  destruct (Ascii.eqb c sep) eqn:E; [constructor; [reflexivity|exact IH]|].
  destruct (split sep s) as [|piece rest]; [repeat constructor|].
  - rewrite has_cons, Ascii.eqb_sym, E. reflexivity.
  - inversion IH as [|? ? Hp Hr]; subst. constructor; [|exact Hr].
    rewrite has_cons, Ascii.eqb_sym, E. exact Hp.
Qed.

(** A string without the separator is its own single piece. *)
Lemma split_whole sep s : has sep s = false -> split sep s = [s].
Proof.
  induction s as [|c s IH]; [reflexivity|].
  rewrite has_cons. intros H. apply orb_false_elim in H as [Hc Hs].
  cbn [split]. rewrite Ascii.eqb_sym, Hc, (IH Hs). reflexivity.
Qed.

(** One piece more than there are separators. *)
Fixpoint count_char (c : ascii) (s : string) : nat :=
  match s with
  | EmptyString => 0
  | String d s' => ((if Ascii.eqb d c then 1 else 0) + count_char c s')%nat
  end.

Lemma split_length sep s : length (split sep s) = S (count_char sep s).
Proof.
  induction s as [|c s IH]; [reflexivity|]. cbn [split count_char].
  destruct (Ascii.eqb c sep); cbn [length]; [now rewrite IH|].
  destruct (split sep s); cbn in *; lia.
Qed.

Lemma cell_In idx values v : cell idx values = Some v -> In v values.
Proof.
  unfold cell. destruct (_ && _); [|discriminate]. apply nth_error_In.
Qed.

Lemma truthy_append a c b : JsString.truthy (a ++ String c b) = true.
Proof. now destruct a. Qed.

Variable env : Env.
Variable Number : string -> float.
Variable parseFloat : string -> float.

Lemma clock_stamp_truthy s : clock_stamp env = Resolved s -> JsString.truthy s = true.
Proof.
  unfold clock_stamp, toISOString. destruct (TimeClip (now env)); [|discriminate].
  intros [= <-]. apply truthy_append.
Qed.

(** The cell of a row under a header name, when the row has it. *)
Definition row_cell (headers : list string) (line name : string) : option string :=
  cell (indexOf name headers) (map trim (split "," line)).

(** A cell of a row is a trimmed piece of the line, so without a comma. *)
Lemma row_cell_no_comma headers line name v :
  row_cell headers line name = Some v -> has "," v = false.
Proof.
  intros H%cell_In. apply in_map_iff in H as (piece & <- & Hin).
  pose proof (split_pieces "," line) as Hp.
  rewrite List.Forall_forall in Hp. specialize (Hp piece Hin).
  destruct (has "," (trim piece)) eqn:E; [|reflexivity].
  now rewrite (trim_has _ _ E) in Hp.
Qed.

(** The embedding of a row: the numbers of its cell, or else the
    provider's embedding of its transcript, or else none. *)
Definition row_embedding (headers : list string) (line : string) (e : VoiceEntry) : Prop :=
  match row_cell headers line "embedding" with
  | Some v =>
      if JsString.truthy v then embedding e = Some (map Number (split "," v))
      else if JsString.truthy (transcript_user e)
           then exists emb, embed env (transcript_user e) = Resolved emb /\
                            embedding e = Some emb
           else embedding e = None
  | None =>
      if JsString.truthy (transcript_user e)
      then exists emb, embed env (transcript_user e) = Resolved emb /\
                       embedding e = Some emb
      else embedding e = None
  end.

(** What a row gives, field by field. *)
Lemma parseLine_resolved headers i line e :
  parseLine env Number parseFloat headers i line = Resolved e ->
  id (voice e) = "mock-id-" ++ of_nat i /\
  transcript_raw (voice e) = default "" (row_cell headers line "transcript_raw") /\
  transcript_user (voice e) = default "" (row_cell headers line "transcript_user") /\
  tags_user (voice e) = tags_of (row_cell headers line "tags_user") /\
  JsString.truthy (created_at (voice e)) = true /\
  JsString.truthy (updated_at e) = true /\
  row_embedding headers line (voice e).
Proof.
  unfold parseLine, row_embedding. cbv zeta.
  repeat match goal with
         | |- context [cell (indexOf ?n headers) ?vs] =>
             change (cell (indexOf n headers) vs) with (row_cell headers line n)
         end.
  intros H.
  assert (Hstamp : forall v s s',
             stamp_of env v = Resolved s ->
             (if JsString.truthy s then Resolved s else clock_stamp env) = Resolved s' ->
             JsString.truthy s' = true).
  { intros v s s' _ Hs. destruct (JsString.truthy s) eqn:E.
    - now injection Hs as <-.
    - exact (clock_stamp_truthy _ Hs). }
  destruct (stamp_of env (row_cell headers line "created_at")) as [c0|] eqn:Hc0;
    cbn in H; [|discriminate].
  destruct (stamp_of env (row_cell headers line "updated_at")) as [u0|] eqn:Hu0;
    cbn in H; [|discriminate].
  destruct (if JsString.truthy c0 then _ else _) as [c1|] eqn:Hc1; cbn in H; [|discriminate].
  destruct (if JsString.truthy u0 then _ else _) as [u1|] eqn:Hu1; cbn in H; [|discriminate].
  pose proof (Hstamp _ _ _ Hc0 Hc1) as Hct.
  pose proof (Hstamp _ _ _ Hu0 Hu1) as Hut.
  destruct (row_cell headers line "embedding") as [v|] eqn:Hv.
  - destruct (JsString.truthy v) eqn:Htv; cbn in H.
    + injection H as <-. cbn. repeat split; assumption.
    + destruct (JsString.truthy (default "" (row_cell headers line "transcript_user")))
        eqn:Htu.
      * destruct (embed env _) as [emb|] eqn:He; cbn in H; [|discriminate].
        injection H as <-. cbn. rewrite Htu. repeat split; try assumption. eauto.
      * cbn in H. injection H as <-. cbn. rewrite Htu. repeat split; assumption.
  - destruct (JsString.truthy (default "" (row_cell headers line "transcript_user")))
      eqn:Htu.
    + destruct (embed env _) as [emb|] eqn:He; cbn in H; [|discriminate].
      injection H as <-. cbn. rewrite Htu. repeat split; try assumption. eauto.
    + cbn in H. injection H as <-. cbn. rewrite Htu. repeat split; assumption.
Qed.

Lemma parseRows_resolved headers rows : forall i entries,
  parseRows env Number parseFloat headers i rows = Resolved entries ->
  Forall2 (fun '(k, line) e =>
             parseLine env Number parseFloat headers k line = Resolved e)
          (combine (seq i (length rows)) rows) entries.
Proof.
  induction rows as [|line rows IH]; intros i entries; cbn [parseRows].
  - intros [= <-]. constructor.
  - destruct (parseLine _ _ _ headers i line) as [e|] eqn:He; cbn; [|discriminate].
    destruct (parseRows _ _ _ headers (S i) rows) as [es|] eqn:Hes; cbn; [|discriminate].
    intros [= <-]. cbn. constructor; [exact He | now apply IH].
Qed.

(** A resolved load, taken apart: the header line and the rows, each row
    with its index from 1. *)
Lemma parseCsv_resolved csv entries :
  parseCsv env Number parseFloat csv = Resolved entries ->
  exists header rows,
    split newline (trim csv) = header :: rows /\
    Forall2 (fun '(k, line) e =>
               parseLine env Number parseFloat (map trim (split "," header)) k line
               = Resolved e)
            (combine (seq 1 (length rows)) rows) entries.
Proof.
  unfold parseCsv.
  destruct (split newline (trim csv)) as [|header rows] eqn:Hl.
  - now destruct (split_not_nil _ _ Hl).
  - exists header, rows. split; [reflexivity|].
    destruct (Nat.ltb_spec (length (header :: rows)) 2) as [Hlt|Hge].
    + destruct rows; [|cbn in Hlt; lia]. injection H as <-. constructor.
    + now apply parseRows_resolved.
Qed.

End LoaderFacts.

(** [Number] for the fixtures: exact on the empty string and on strings of
    decimal digits; other numerals are outside it. *)
Definition Number_of_digits (s : string) : float :=
  match digits (String.length s) 0 s with
  | Some (n, _) => of_Z n
  | None => nan
  end.

(** A header line and four rows: a quoted transcript, a transcript with a
    comma in it and a number in the embedding column, a blank line, and a
    row of one cell. *)
Definition csv_fixture : string :=
  let nl := String Csv.newline EmptyString in
  let quoted := String dquote "Need to call mom" ++ String dquote EmptyString in
  "transcript_raw,transcript_user,tags_user,created_at,embedding" ++ nl
  ++ quoted ++ "," ++ quoted ++ ",family; health,2025-06-17T00:00:00Z," ++ nl
  ++ "Book dentist, tomorrow,Book dentist tomorrow,,7" ++ nl
  ++ nl
  ++ "buy milk" ++ nl.

Section LoaderTheorems.
Import Csv.
Variable env : Env.
Variable Number : string -> float.
Variable parseFloat : string -> float.

Lemma parseCsv_entries csv entries (P : CsvEntry -> Prop) :
  parseCsv env Number parseFloat csv = Resolved entries ->
  (forall headers k line e,
     parseLine env Number parseFloat headers k line = Resolved e -> P e) ->
  Forall P entries.
Proof.
  intros H HP. apply parseCsv_resolved in H as (header & rows & _ & HF).
  eapply Forall2_Forall_r; [exact HF|]. intros [k line] e He. eauto.
Qed.

(** A file of one line, a header alone or nothing at all, gives no
    entries, and nothing is asked of the host. *)
Theorem header_alone_gives_nothing :
  forall csv,
    includes (trim csv) (String newline EmptyString) = false ->
    parseCsv env Number parseFloat csv = Resolved [].
Proof.
  intros csv H. unfold parseCsv.
  now rewrite (split_whole newline (trim csv) H).
Qed.

(** Every line after the first gives an entry, a blank line or a line of
    too few or too many cells too: the entries are as many as the line
    feeds of the trimmed content, and their ids are mock-id-1, mock-id-2
    and so on in the order of the lines. *)
Theorem one_entry_per_line :
  forall csv entries,
    parseCsv env Number parseFloat csv = Resolved entries ->
    length entries = count_char newline (trim csv) /\
    map (fun e => id (voice e)) entries =
    map (fun k => "mock-id-" ++ of_nat k) (seq 1 (length entries)).
Proof.
  intros csv entries H.
  apply parseCsv_resolved in H as (header & rows & Hl & HF).
  pose proof (split_length newline (trim csv)) as Hlen. rewrite Hl in Hlen.
  cbn [length] in Hlen. injection Hlen as Hlen.
  assert (Hn : length entries = length rows).
  { apply Forall2_length_eq in HF. rewrite length_combine, length_seq in HF. lia. }
  split; [lia|]. rewrite Hn. clear Hl Hlen Hn.
  revert entries HF. generalize 1%nat as i.
  induction rows as [|line rows IH]; intros i entries HF; cbn in HF.
  - inversion HF. reflexivity.
  - inversion HF as [|? e ? es He HF']; subst. cbn [map length seq]. f_equal.
    + now apply parseLine_resolved in He as (Hid & _).
    + now apply IH.
Qed.

Lemma split_pieces_sub sep s c :
  Forall (fun piece => has c piece = true -> has c s = true) (split sep s).
Proof.
  induction s as [|d s IH]; cbn [split]; [repeat constructor; trivial|].
  destruct (Ascii.eqb d sep).
  - constructor; [discriminate|].
    eapply Forall_impl; [exact IH|]. cbn beta. intros piece Hp H.
    rewrite has_cons, (Hp H). apply orb_true_r.
  - destruct (split sep s) as [|piece rest] eqn:Es.
    + now destruct (split_not_nil _ _ Es).
    + inversion IH as [|? ? Hp Hr]; subst. constructor.
      * rewrite !has_cons. intros [->|H]%orb_prop; [reflexivity|].
        rewrite (Hp H). apply orb_true_r.
      * eapply Forall_impl; [exact Hr|]. cbn beta. intros q Hq H.
        rewrite has_cons, (Hq H). apply orb_true_r.
Qed.

(** A row is split at every comma, quoted or not, before anything else:
    no transcript of a loaded entry holds a comma, and its tags are the
    non-blank pieces of one cell between semicolons, with no comma and no
    semicolon in them. *)
Theorem cells_end_at_every_comma :
  forall csv entries,
    parseCsv env Number parseFloat csv = Resolved entries ->
    Forall (fun e =>
              includes (transcript_raw (voice e)) "," = false /\
              includes (transcript_user (voice e)) "," = false /\
              Forall (fun tag => includes tag "," = false /\
                                 includes tag ";" = false /\
                                 JsString.truthy (trim tag) = true)
                     (tags_user (voice e)))
           entries.
Proof.
  intros csv entries H. eapply parseCsv_entries; [exact H|].
  intros headers k line e He.
  apply parseLine_resolved in He as (_ & Hraw & Huser & Htags & _).
  assert (Hcell : forall name, has "," (default "" (row_cell headers line name)) = false).
  { intros name. destruct (row_cell headers line name) as [v|] eqn:E; [|reflexivity].
    exact (row_cell_no_comma headers line name v E). }
  rewrite Hraw, Huser, Htags. split; [apply Hcell|]. split; [apply Hcell|].
  destruct (row_cell headers line "tags_user") as [v|] eqn:E; cbn [tags_of]; [|constructor].
  destruct (JsString.truthy v); [|constructor].
  apply List.Forall_forall. intros tag Hin. apply filter_In in Hin as [Hin Htrim].
  pose proof (split_pieces ";" v) as Hsemi.
  pose proof (split_pieces_sub ";" v ",") as Hsub.
  rewrite List.Forall_forall in Hsemi, Hsub.
  split; [|split; [exact (Hsemi tag Hin) | exact Htrim]].
  destruct (has "," tag) eqn:Ec; [|exact Ec].
  pose proof (Hsub tag Hin Ec) as Hv.
  rewrite (row_cell_no_comma headers line _ v E) in Hv. discriminate.
Qed.

(** The defaults of the loader: a loaded entry never has an empty
    creation or update timestamp, and it has an embedding whenever its
    user transcript is not empty. *)
Theorem loaded_entries_are_complete :
  forall csv entries,
    parseCsv env Number parseFloat csv = Resolved entries ->
    Forall (fun e =>
              JsString.truthy (created_at (voice e)) = true /\
              JsString.truthy (updated_at e) = true /\
              (JsString.truthy (transcript_user (voice e)) = true ->
               is_Some (embedding (voice e))))
           entries.
Proof.
  intros csv entries H. eapply parseCsv_entries; [exact H|].
  intros headers k line e He.
  apply parseLine_resolved in He as (_ & _ & _ & _ & Hc & Hu & Hemb).
  split; [exact Hc|]. split; [exact Hu|]. intros Ht.
  unfold row_embedding in Hemb. rewrite Ht in Hemb.
  destruct (row_cell headers line "embedding") as [v|].
  - destruct (JsString.truthy v); [eauto|]. destruct Hemb as (emb & _ & ->). eauto.
  - destruct Hemb as (emb & _ & ->). eauto.
Qed.

(** The embedding column holds one number at most: its cell has no comma
    left in it when it is split at the commas, so the embedding of a
    loaded entry is absent (for an empty transcript), or a vector of one
    component read from the cell, or what the provider gives for the
    transcript. *)
Theorem embedding_cell_is_one_number :
  forall csv entries,
    parseCsv env Number parseFloat csv = Resolved entries ->
    Forall (fun e =>
              match embedding (voice e) with
              | None => transcript_user (voice e) = ""
              | Some emb =>
                  (exists v, emb = [Number v]) \/
                  embed env (transcript_user (voice e)) = Resolved emb
              end)
           entries.
Proof.
  intros csv entries H. eapply parseCsv_entries; [exact H|].
  intros headers k line e He.
  apply parseLine_resolved in He as (_ & _ & _ & _ & _ & _ & Hemb).
  unfold row_embedding in Hemb.
  assert (Hrest :
    (if JsString.truthy (transcript_user (voice e))
     then exists emb, embed env (transcript_user (voice e)) = Resolved emb /\
                      embedding (voice e) = Some emb
     else embedding (voice e) = None) ->
    match embedding (voice e) with
    | None => transcript_user (voice e) = ""
    | Some emb =>
        (exists v, emb = [Number v]) \/
        embed env (transcript_user (voice e)) = Resolved emb
    end).
  { destruct (transcript_user (voice e)) eqn:Et; cbn.
    - now intros ->.
    - intros (emb & Hp & ->). now right. }
  destruct (row_cell headers line "embedding") as [v|] eqn:E; [|exact (Hrest Hemb)].
  destruct (JsString.truthy v); [|exact (Hrest Hemb)].
  rewrite Hemb. left. exists v.
  now rewrite (split_whole "," v (row_cell_no_comma headers line _ v E)).
Qed.

(** The loader fails with the embedding provider only: when the provider
    resolves on every text and the clock is a time value, every content
    loads. *)
Theorem loader_resolves :
  forall csv,
    (forall text, exists v, embed env text = Resolved v) ->
    is_Some (TimeClip (now env)) ->
    exists entries, parseCsv env Number parseFloat csv = Resolved entries.
Proof.
  intros csv Hemb [t Ht]. unfold parseCsv.
  destruct (length _ <? 2)%nat; [eauto|].
  destruct (split newline (trim csv)) as [|header rows]; [eauto|].
  generalize 1%nat as i. generalize (map trim (split "," header)) as headers.
  intros headers. induction rows as [|line rows IH]; intros i; cbn [parseRows]; [eauto|].
  destruct (IH (S i)) as [es ->].
  assert (Hl : exists e, parseLine env Number parseFloat headers i line = Resolved e);
    [|destruct Hl as [e ->]; cbn; eauto].
  unfold parseLine, stamp_of, clock_stamp. rewrite Ht. cbn [toISOString].
  repeat match goal with
         | |- context [match cell ?i ?vs with _ => _ end] => destruct (cell i vs)
         | |- context [if JsString.truthy ?s then _ else _] => destruct (JsString.truthy s)
         | |- context [embed env ?s] => destruct (Hemb s) as [? ->]
         | _ => progress cbn
         end; eauto.
Qed.

End LoaderTheorems.

Lemma header_alone_gives_nothing_witness :
  includes (trim "transcript_raw,transcript_user ")
           (String Csv.newline EmptyString) = false /\
  Csv.parseCsv failing_provider Number_of_digits Number_of_digits
    "transcript_raw,transcript_user " = Resolved [].
Proof.
  split; [reflexivity|].
  apply (header_alone_gives_nothing failing_provider Number_of_digits Number_of_digits).
  reflexivity.
Defined.

Lemma one_entry_per_line_witness :
  exists entries,
    Csv.parseCsv (offline june17) Number_of_digits Number_of_digits csv_fixture
      = Resolved entries /\
    map (fun e => transcript_user (Csv.voice e)) entries =
      [ String dquote "Need to call mom" ++ String dquote EmptyString;
        "tomorrow"; ""; "" ] /\
    length entries = count_char Csv.newline (trim csv_fixture) /\
    map (fun e => id (Csv.voice e)) entries =
    map (fun k => "mock-id-" ++ of_nat k) (seq 1 (length entries)).
Proof.
  eexists. split; [vm_compute; reflexivity|]. split; [reflexivity|].
  apply (one_entry_per_line (offline june17) Number_of_digits Number_of_digits csv_fixture).
  vm_compute. reflexivity.
Defined.

Lemma cells_end_at_every_comma_witness :
  exists entries,
    Csv.parseCsv (offline june17) Number_of_digits Number_of_digits csv_fixture
      = Resolved entries /\
    map (fun e => tags_user (Csv.voice e)) entries =
      [["family"; " health"]; ["Book dentist tomorrow"]; []; []] /\
    Forall (fun e =>
              includes (transcript_raw (Csv.voice e)) "," = false /\
              includes (transcript_user (Csv.voice e)) "," = false /\
              Forall (fun tag => includes tag "," = false /\
                                 includes tag ";" = false /\
                                 JsString.truthy (trim tag) = true)
                     (tags_user (Csv.voice e)))
           entries.
Proof.
  eexists. split; [vm_compute; reflexivity|]. split; [reflexivity|].
  apply (cells_end_at_every_comma (offline june17) Number_of_digits Number_of_digits
           csv_fixture).
  vm_compute. reflexivity.
Defined.

Lemma loaded_entries_are_complete_witness :
  exists entries,
    Csv.parseCsv (offline june17) Number_of_digits Number_of_digits csv_fixture
      = Resolved entries /\
    map (fun e => created_at (Csv.voice e)) entries =
      [ "2025-06-17T00:00:00Z"; "2025-06-17T00:00:00.000Z";
        "2025-06-17T00:00:00.000Z"; "2025-06-17T00:00:00.000Z" ] /\
    Forall (fun e =>
              JsString.truthy (created_at (Csv.voice e)) = true /\
              JsString.truthy (Csv.updated_at e) = true /\
              (JsString.truthy (transcript_user (Csv.voice e)) = true ->
               is_Some (embedding (Csv.voice e))))
           entries.
Proof.
  eexists. split; [vm_compute; reflexivity|]. split; [reflexivity|].
  apply (loaded_entries_are_complete (offline june17) Number_of_digits Number_of_digits
           csv_fixture).
  vm_compute. reflexivity.
Defined.

Lemma embedding_cell_is_one_number_witness :
  exists entries,
    Csv.parseCsv (offline june17) Number_of_digits Number_of_digits csv_fixture
      = Resolved entries /\
    map (fun e => length <$> embedding (Csv.voice e)) entries =
      [Some 8%nat; Some 1%nat; None; None] /\
    Forall (fun e =>
              match embedding (Csv.voice e) with
              | None => transcript_user (Csv.voice e) = ""
              | Some emb =>
                  (exists v, emb = [Number_of_digits v]) \/
                  embed (offline june17) (transcript_user (Csv.voice e)) = Resolved emb
              end)
           entries.
Proof.
  eexists. split; [vm_compute; reflexivity|]. split; [reflexivity|].
  apply (embedding_cell_is_one_number (offline june17) Number_of_digits Number_of_digits
           csv_fixture).
  vm_compute. reflexivity.
Defined.

Lemma loader_resolves_witness :
  (forall text, exists v, embed (offline june17) text = Resolved v) /\
  is_Some (TimeClip (now (offline june17))) /\
  exists entries,
    Csv.parseCsv (offline june17) Number_of_digits Number_of_digits csv_fixture
      = Resolved entries.
Proof.
  assert (H1 : forall text, exists v, embed (offline june17) text = Resolved v)
    by (intros text; cbn; eauto).
  assert (H2 : is_Some (TimeClip (now (offline june17)))) by (vm_compute; eauto).
  split; [exact H1|]. split; [exact H2|].
  exact (loader_resolves (offline june17) Number_of_digits Number_of_digits
           csv_fixture H1 H2).
Defined.

Lemma Forall2_Forall_lr {A B : Type} (R : A -> B -> Prop) (P : A -> Prop)
    (Q : B -> Prop) l1 l2 :
  Forall2 R l1 l2 -> Forall P l1 -> (forall a b, R a b -> P a -> Q b) -> Forall Q l2.
Proof.
  induction 1 as [|a b l1 l2 Hab _ IH]; intros HP HQ; [constructor|].
  inversion HP; subst. constructor; eauto.
Qed.

(** The loader and the pipeline together.  Whatever the host of the
    pipeline, every task made from loaded entries carries a score once a
    query is given: an entry that qualifies has a transcript, and the
    loader has given every entry with a transcript an embedding. *)
Theorem loaded_tasks_all_scored :
  forall loader_env Number parseFloat csv entries env query res,
    Csv.mockVoiceEntries loader_env Number parseFloat csv = Resolved entries ->
    processEntries env entries query = Resolved res ->
    query_given query = true ->
    Forall (fun t => is_Some (score t)) (tasks res).
Proof.
  intros lenv Number parseFloat csv entries env query res Hload H Hg.
  unfold Csv.mockVoiceEntries in Hload.
  destruct (Csv.parseCsv lenv Number parseFloat csv) as [es|] eqn:Hes;
    cbn in Hload; [|discriminate].
  injection Hload as <-.
  assert (Hemb : Forall (fun e => JsString.truthy (transcript_user e) = true ->
                                  is_Some (embedding e))
                        (List.filter qualifies (map Csv.voice es))).
  { apply List.Forall_forall. intros e [Hin _]%filter_In.
    apply in_map_iff in Hin as (ce & <- & Hin).
    pose proof (parseCsv_entries lenv Number parseFloat csv es
                  (fun c => JsString.truthy (transcript_user (Csv.voice c)) = true ->
                            is_Some (embedding (Csv.voice c))) Hes) as Hall.
    rewrite List.Forall_forall in Hall. apply Hall; [|exact Hin].
    intros headers k line c Hc Ht.
    apply parseLine_resolved in Hc as (_ & _ & _ & _ & _ & _ & Hrow).
    unfold row_embedding in Hrow. rewrite Ht in Hrow.
    destruct (row_cell headers line "embedding") as [v|].
    - destruct (JsString.truthy v); [eauto|]. destruct Hrow as (emb & _ & ->). eauto.
    - destruct Hrow as (emb & _ & ->). eauto. }
  apply processEntries_resolved in H as (qe & ts0 & Hqe & _ & HF & Ht & _).
  destruct (query_embedding_given env query qe Hg Hqe) as [v ->].
  assert (H0 : Forall (fun t => is_Some (score t)) ts0).
  { assert (HF' : Forall2 (fun e t => qualifies e = true /\
                                      extractTask env (Some v) e = Resolved t)
                          (List.filter qualifies (map Csv.voice es)) ts0).
    { clear Ht Hemb. generalize dependent ts0.
      induction (map Csv.voice es) as [|e l IH]; intros ts0 HF; cbn in *.
      - inversion HF. constructor.
      - destruct (qualifies e) eqn:Hq; [|now apply IH].
        inversion HF; subst. constructor; [now split | now apply IH]. }
    eapply Forall2_Forall_lr; [exact HF' | exact Hemb |].
    intros e t [Hq He] Hsome. cbn beta in *.
    rewrite (extractTask_score env (Some v) e t He).
    unfold qualifies, transcript_of in Hq.
    destruct (transcript_user e); [discriminate|].
    destruct (Hsome eq_refl) as [emb ->]. eauto. }
  rewrite Ht, Hg. eapply Permutation_Forall; [|exact H0]. symmetry. apply sort_perm.
Qed.

Lemma loaded_tasks_all_scored_witness :
  exists entries res,
    Csv.mockVoiceEntries (offline june17) Number_of_digits Number_of_digits csv_fixture
      = Resolved entries /\
    processEntries (offline june17) entries (Some "call") = Resolved res /\
    query_given (Some "call") = true /\
    length (tasks res) = 2%nat /\
    Forall (fun t => is_Some (score t)) (tasks res).
Proof.
  eexists. eexists. split; [vm_compute; reflexivity|].
  split; [vm_compute; reflexivity|]. split; [reflexivity|]. split; [reflexivity|].
  eapply (loaded_tasks_all_scored (offline june17) Number_of_digits Number_of_digits
            csv_fixture _ (offline june17) (Some "call"));
    [vm_compute; reflexivity | vm_compute; reflexivity | reflexivity].
Defined.

(* ================================================================== *)
(** * What the two lexicons match *)
(* ================================================================== *)

Section Matching.

(** The character before the position reached after [s], from [prev]. *)
Fixpoint last_of (prev : option ascii) (s : string) : option ascii :=
  match s with
  | EmptyString => prev
  | String c s' => last_of (Some c) s'
  end.

Lemma last_of_app prev a b : last_of prev (a ++ b) = last_of (last_of prev a) b.
Proof.
  revert prev. induction a as [|c a IH]; intros prev; [reflexivity|].
  change (String c a ++ b) with (String c (a ++ b)). cbn [last_of]. apply IH.
Qed.

Lemma string_app_nil_r (s : string) : s ++ "" = s.
Proof.
  induction s as [|c s IH]; [reflexivity|].
  change (String c (s ++ "") = String c s). now rewrite IH.
Qed.

Lemma string_length_app (a b : string) :
  String.length (a ++ b) = (String.length a + String.length b)%nat.
Proof.
  induction a as [|c a IH]; [reflexivity|].
  change (S (String.length (a ++ b)) = S (String.length a + String.length b)).
  now rewrite IH.
Qed.

Lemma take_app_length (a b : string) :
  take (String.length (a ++ b) - String.length b) (a ++ b) = a.
Proof.
  rewrite string_length_app.
  replace (String.length a + String.length b - String.length b)%nat
    with (String.length a) by lia.
  induction a as [|c a IH]; cbn [String.length].
  - now destruct (("" ++ b)%string).
  - change (String c a ++ b) with (String c (a ++ b)). cbn [take]. now rewrite IH.
Qed.

(** ** Lower case *)

Definition is_upper (c : ascii) : bool := (65 <=? code c) && (code c <=? 90).

Fixpoint no_upper (s : string) : bool :=
  match s with
  | EmptyString => true
  | String c s' => negb (is_upper c) && no_upper s'
  end.

Lemma code_range c : 0 <= code c < 256.
Proof.
  unfold code. pose proof (N_ascii_bounded c). lia.
Qed.

Lemma chr_code c : chr (code c) = c.
Proof. unfold chr, code. rewrite N2Z.id. apply ascii_N_embedding. Qed.

Lemma lower_char_not_upper c : is_upper (lower_char c) = false.
Proof.
  unfold lower_char, is_upper. pose proof (code_range c) as Hc.
  destruct ((65 <=? code c) && (code c <=? 90)) eqn:E1.
  - apply andb_prop in E1 as [H1 H2]. apply Z.leb_le in H1, H2.
    rewrite code_chr by lia. apply andb_false_iff. right. apply Z.leb_gt. lia.
  - destruct ((192 <=? code c) && (code c <=? 222) && negb (code c =? 215)) eqn:E2.
    + apply andb_prop in E2 as [E2 _]. apply andb_prop in E2 as [H1 H2].
      apply Z.leb_le in H1, H2.
      rewrite code_chr by lia. apply andb_false_iff. right. apply Z.leb_gt. lia.
    + exact E1.
Qed.

Lemma toLowerCase_no_upper s : no_upper (toLowerCase s) = true.
Proof.
  induction s as [|c s IH]; [reflexivity|].
  cbn [toLowerCase no_upper]. now rewrite lower_char_not_upper, IH.
Qed.

Lemma no_upper_app a b : no_upper (a ++ b) = no_upper a && no_upper b.
Proof.
  induction a as [|c a IH]; [reflexivity|].
  change (String c a ++ b) with (String c (a ++ b)). cbn [no_upper].
  now rewrite IH, andb_assoc.
Qed.

Lemma code_canonicalize c :
  code (canonicalize c) =
  if (97 <=? code c) && (code c <=? 122) then code c - 32 else code c.
Proof.
  unfold canonicalize. destruct ((97 <=? code c) && (code c <=? 122)) eqn:E; [|reflexivity].
  apply andb_prop in E as [H1 H2]. apply Z.leb_le in H1, H2.
  apply code_chr. lia.
Qed.

(** Under the i flag two characters that are not capitals match only
    when they are the same. *)
Lemma char_matches_lower a b :
  is_upper a = false -> is_upper b = false -> char_matches a b = true -> a = b.
Proof.
  unfold char_matches, is_upper. intros Ha Hb H.
  apply Ascii.eqb_eq in H. apply (f_equal code) in H.
  rewrite !code_canonicalize in H.
  rewrite <- (chr_code a), <- (chr_code b). f_equal.
  apply andb_false_iff in Ha, Hb.
  rewrite !Z.leb_gt in Ha, Hb.
  destruct ((97 <=? code a) && (code a <=? 122)) eqn:Ea;
    destruct ((97 <=? code b) && (code b <=? 122)) eqn:Eb;
    rewrite ?andb_true_iff, ?andb_false_iff, ?Z.leb_le, ?Z.leb_gt in Ea, Eb; lia.
Qed.

Lemma char_matches_refl a : char_matches a a = true.
Proof. apply Ascii.eqb_refl. Qed.

(** ** Literals *)

Lemma eat_sound p : forall prev s prev' s',
  no_upper p = true -> no_upper s = true ->
  eat p prev s = Some (prev', s') ->
  s = p ++ s' /\ prev' = last_of prev p.
Proof.
  induction p as [|a p IH]; intros prev s prev' s' Hp Hs; cbn [eat].
  - intros [= <- <-]. now split.
  - destruct s as [|b s]; [discriminate|].
    cbn [no_upper] in Hp, Hs.
    apply andb_prop in Hp as [Ha Hp]. apply andb_prop in Hs as [Hb Hs].
    apply negb_true_iff in Ha, Hb.
    destruct (char_matches a b) eqn:E; [|discriminate].
    apply (char_matches_lower a b Ha Hb) in E. subst b.
    intros H. destruct (IH _ _ _ _ Hp Hs H) as [-> ->]. now split.
Qed.

Lemma eat_complete p : forall prev post,
  eat p prev (p ++ post) = Some (last_of prev p, post).
Proof.
  induction p as [|a p IH]; intros prev post; [reflexivity|].
  change (String a p ++ post) with (String a (p ++ post)).
  cbn [eat last_of]. rewrite char_matches_refl. apply IH.
Qed.

(** ** Alternations *)

Lemma rmatch_alt_sound alts prev s k rest :
  rmatch (alt alts) prev s k = Some rest ->
  exists a, In a alts /\ rmatch a prev s k = Some rest.
Proof.
  induction alts as [|a alts IH]; cbn [alt fold_right rmatch]; [discriminate|].
  fold (alt alts).
  destruct (rmatch a prev s k) as [r|] eqn:E.
  - intros [= <-]. exists a. split; [now left | exact E].
  - intros H. destruct (IH H) as (a' & Hin & Ha'). exists a'. split; [now right | exact Ha'].
Qed.

Lemma rmatch_alt_complete alts a prev s k :
  In a alts -> is_Some (rmatch a prev s k) -> is_Some (rmatch (alt alts) prev s k).
Proof.
  induction alts as [|b alts IH]; intros Hin Ha; [destruct Hin|].
  cbn [alt fold_right rmatch]. fold (alt alts).
  destruct (rmatch b prev s k) as [r|] eqn:E; [eauto|].
  destruct Hin as [->|Hin]; [|now apply IH].
  rewrite E in Ha. now destruct Ha.
Qed.

(** ** The leftmost match *)

Lemma exec_from_unfold r prev s :
  exec_from r prev s =
  match match_here r prev s with
  | Some m => Some m
  | None =>
      match s with
      | EmptyString => None
      | String c s' => exec_from r (Some c) s'
      end
  end.
Proof. now destruct s. Qed.

Lemma exec_from_sound r s : forall prev m,
  exec_from r prev s = Some m ->
  exists pre rest, s = pre ++ rest /\ match_here r (last_of prev pre) rest = Some m.
Proof.
  induction s as [|c s IH]; intros prev m; rewrite exec_from_unfold.
  - destruct (match_here r prev "") as [m'|] eqn:E; [|discriminate].
    intros [= <-]. now exists "", "".
  - destruct (match_here r prev (String c s)) as [m'|] eqn:E.
    + intros [= <-]. now exists "", (String c s).
    + intros H. destruct (IH _ _ H) as (pre & rest & -> & Hm).
      now exists (String c pre), rest.
Qed.

Lemma exec_from_complete r pre : forall prev rest,
  is_Some (match_here r (last_of prev pre) rest) ->
  is_Some (exec_from r prev (pre ++ rest)).
Proof.
  induction pre as [|c pre IH]; intros prev rest H; rewrite exec_from_unfold.
  - cbn [last_of] in H. change ("" ++ rest) with rest.
    destruct (match_here r prev rest); [eauto | now destruct H].
  - change (String c pre ++ rest) with (String c (pre ++ rest)).
    destruct (match_here r prev (String c (pre ++ rest))); [eauto|].
    now apply IH.
Qed.

End Matching.

(** ** The two lexicons between their word boundaries *)

(** The continuation of an alternative: the closing word boundary. *)
Definition closing : cont :=
  fun prev' s' => rmatch RWordB prev' s' (fun _ rest => Some rest).

Lemma bounded_unfold alts prev s :
  rmatch (RSeq RWordB (RSeq (alt alts) RWordB)) prev s (fun _ rest => Some rest) =
  if xorb (is_word_opt prev) (is_word_opt (head s))
  then rmatch (alt alts) prev s closing else None.
Proof. reflexivity. Qed.

Lemma closing_unfold prev s :
  closing prev s =
  if xorb (is_word_opt prev) (is_word_opt (head s)) then Some s else None.
Proof. reflexivity. Qed.

Lemma bounded_sound alts prev s m :
  match_here (RSeq RWordB (RSeq (alt alts) RWordB)) prev s = Some m ->
  xorb (is_word_opt prev) (is_word_opt (head s)) = true /\
  exists a rest, In a alts /\ rmatch a prev s closing = Some rest /\
                 m = take (String.length s - String.length rest) s.
Proof.
  unfold match_here. rewrite bounded_unfold.
  destruct (xorb (is_word_opt prev) (is_word_opt (head s))) eqn:Eb; [|discriminate].
  destruct (rmatch (alt alts) prev s closing) as [rest|] eqn:E; [|discriminate].
  intros [= <-]. split; [reflexivity|].
  destruct (rmatch_alt_sound _ _ _ _ _ E) as (a & Hin & Ha). now exists a, rest.
Qed.

Lemma bounded_complete alts a prev s :
  xorb (is_word_opt prev) (is_word_opt (head s)) = true ->
  In a alts -> is_Some (rmatch a prev s closing) ->
  is_Some (match_here (RSeq RWordB (RSeq (alt alts) RWordB)) prev s).
Proof.
  intros Eb Hin Ha. unfold match_here. rewrite bounded_unfold, Eb.
  destruct (rmatch_alt_complete alts a prev s closing Hin Ha) as [rest ->]. eauto.
Qed.

Lemma closing_some prev s rest :
  closing prev s = Some rest ->
  rest = s /\ xorb (is_word_opt prev) (is_word_opt (head s)) = true.
Proof.
  rewrite closing_unfold.
  destruct (xorb (is_word_opt prev) (is_word_opt (head s))); [|discriminate].
  now intros [= <-].
Qed.

Lemma lit_sound v prev s rest :
  no_upper v = true -> no_upper s = true ->
  rmatch (lit v) prev s closing = Some rest ->
  s = v ++ rest /\
  xorb (is_word_opt (last_of prev v)) (is_word_opt (head rest)) = true.
Proof.
  intros Hv Hs. unfold lit. cbn [rmatch].
  destruct (eat v prev s) as [[prev' s']|] eqn:E; [|discriminate].
  destruct (eat_sound _ _ _ _ _ Hv Hs E) as [-> ->].
  intros H. apply closing_some in H as [-> H]. now split.
Qed.

Lemma lit_complete v prev post :
  xorb (is_word_opt (last_of prev v)) (is_word_opt (head post)) = true ->
  is_Some (rmatch (lit v) prev (v ++ post) closing).
Proof.
  intros H. unfold lit. cbn [rmatch]. rewrite eat_complete.
  rewrite closing_unfold, H. eauto.
Qed.

Lemma word_more_sound s : forall c rest,
  is_word c = true ->
  word_more c s closing = Some rest ->
  exists X, s = X ++ rest /\ all_word X = true /\ is_word_opt (head rest) = false.
Proof.
  induction s as [|d s IH]; intros c rest Hc; cbn [word_more].
  - intros H. apply closing_some in H as [-> _]. now exists "".
  - destruct (is_word d) eqn:Ed.
    + destruct (word_more d s closing) as [r|] eqn:E.
      * intros [= <-]. destruct (IH _ _ Ed E) as (X & -> & HX & Hb).
        exists (String d X). cbn [all_word]. now rewrite Ed, HX.
      * intros H. apply closing_some in H as [_ H].
        cbn [is_word_opt head] in H. now rewrite Hc, Ed in H.
    + intros H. apply closing_some in H as [-> _].
      exists "". cbn [head is_word_opt]. now rewrite Ed.
Qed.

Lemma lit_word_sound p prev s rest :
  no_upper p = true -> no_upper s = true ->
  rmatch (lit_word p) prev s closing = Some rest ->
  exists X, s = p ++ X ++ rest /\ X <> "" /\ all_word X = true.
Proof.
  intros Hp Hs. unfold lit_word. cbn [rmatch].
  destruct (eat p prev s) as [[prev' s']|] eqn:E; [|discriminate].
  destruct (eat_sound _ _ _ _ _ Hp Hs E) as [-> ->].
  destruct s' as [|c s']; [discriminate|].
  destruct (is_word c) eqn:Ec; [|discriminate].
  fold closing. intros H.
  destruct (word_more_sound _ _ _ Ec H) as (X & -> & HX & _).
  exists (String c X). split; [reflexivity|]. split; [discriminate|].
  cbn [all_word]. now rewrite Ec, HX.
Qed.

(** The entries of a lexicon are lower case and begin and end with a
    word character. *)
Definition lexicon_entry (v : string) : bool :=
  no_upper v && is_word_opt (head v) && is_word_opt (last_of None v).

Lemma head_app v post : v <> "" -> head (v ++ post) = head v.
Proof. now destruct v. Qed.

Lemma last_of_nonempty prev v : v <> "" -> last_of prev v = last_of None v.
Proof. destruct v; [congruence | reflexivity]. Qed.

Lemma lexicon_entry_nonempty v : lexicon_entry v = true -> v <> "".
Proof. intros H ->. discriminate H. Qed.

Lemma transcript_of_no_upper e : no_upper (transcript_of e) = true.
Proof.
  unfold transcript_of. destruct (JsString.truthy (transcript_user e)); [|reflexivity].
  apply toLowerCase_no_upper.
Qed.

Lemma truthy_toLowerCase s : JsString.truthy (toLowerCase s) = JsString.truthy s.
Proof. now destruct s. Qed.

Lemma truthy_transcript_of e :
  JsString.truthy (transcript_of e) = JsString.truthy (transcript_user e).
Proof.
  unfold transcript_of. destruct (JsString.truthy (transcript_user e)) eqn:E; [|reflexivity].
  now rewrite truthy_toLowerCase.
Qed.

(** A word of a lexicon found between two word boundaries. *)
Definition whole_word (v s : string) : Prop :=
  exists pre post,
    s = pre ++ v ++ post /\
    is_word_opt (last_of None pre) = false /\
    is_word_opt (head post) = false.

Lemma test_lits_sound vs s :
  forallb lexicon_entry vs = true -> no_upper s = true ->
  test (RSeq RWordB (RSeq (alt (map lit vs)) RWordB)) s = true ->
  exists v, In v vs /\ whole_word v s.
Proof.
  intros Hvs Hs. unfold test, exec.
  destruct (exec_from _ None s) as [m|] eqn:E; [|discriminate]. intros _.
  destruct (exec_from_sound _ _ _ _ E) as (pre & rest & -> & Hm).
  rewrite no_upper_app in Hs. apply andb_prop in Hs as [_ Hrest].
  destruct (bounded_sound _ _ _ _ Hm) as (Hb & a & rest' & Hin & Ha & _).
  apply in_map_iff in Hin as (v & <- & Hin).
  rewrite forallb_forall in Hvs. specialize (Hvs v Hin).
  pose proof (lexicon_entry_nonempty v Hvs) as Hne.
  unfold lexicon_entry in Hvs.
  apply andb_prop in Hvs as [Hvs Hlast]. apply andb_prop in Hvs as [Hlow Hfirst].
  destruct (lit_sound _ _ _ _ Hlow Hrest Ha) as [-> Hb'].
  rewrite (head_app v rest' Hne), Hfirst in Hb.
  rewrite (last_of_nonempty _ v Hne), Hlast in Hb'.
  exists v. split; [exact Hin|]. exists pre, rest'. split; [reflexivity|]. split.
  - now destruct (is_word_opt (last_of None pre)).
  - now destruct (is_word_opt (head rest')).
Qed.

Lemma test_lits_complete vs v s :
  forallb lexicon_entry vs = true ->
  In v vs -> whole_word v s ->
  test (RSeq RWordB (RSeq (alt (map lit vs)) RWordB)) s = true.
Proof.
  intros Hvs Hin (pre & post & -> & Hpre & Hpost).
  rewrite forallb_forall in Hvs. specialize (Hvs v Hin).
  pose proof (lexicon_entry_nonempty v Hvs) as Hne.
  unfold lexicon_entry in Hvs.
  apply andb_prop in Hvs as [Hvs Hlast]. apply andb_prop in Hvs as [Hlow Hfirst].
  unfold test, exec.
  destruct (exec_from_complete (RSeq RWordB (RSeq (alt (map lit vs)) RWordB))
              pre None (v ++ post)) as [m ->]; [|reflexivity].
  apply (bounded_complete _ (lit v)).
  - now rewrite (head_app v post Hne), Hfirst, Hpre.
  - now apply in_map.
  - apply lit_complete. now rewrite (last_of_nonempty _ v Hne), Hlast, Hpost.
Qed.

(** An entry gives a task exactly when its lower-cased transcript holds
    an entry of the intent lexicon as a whole word: not preceded and not
    followed by a letter, a digit or an underscore. *)
Theorem qualifies_iff_whole_word :
  forall e : VoiceEntry,
    qualifies e = true <->
    exists v, In v (lexicon_of taskVerbs) /\ whole_word v (transcript_of e).
Proof.
  intros e. unfold qualifies. split.
  - intros H. apply andb_prop in H as [_ H].
    apply (test_lits_sound (lexicon_of taskVerbs)); [reflexivity | | exact H].
    apply transcript_of_no_upper.
  - intros (v & Hin & Hw). apply andb_true_intro. split.
    + destruct Hw as (pre & post & -> & _).
      assert (Hne : v <> "").
      { apply lexicon_entry_nonempty.
        assert (Hall : forallb lexicon_entry (lexicon_of taskVerbs) = true) by reflexivity.
        rewrite forallb_forall in Hall. now apply Hall. }
      destruct v as [|c v]; [congruence|]. apply truthy_append.
    + apply (test_lits_complete (lexicon_of taskVerbs) v); [reflexivity | exact Hin | exact Hw].
Qed.

(** The phrase the time lexicon finds in a transcript is one of the five
    time words, or one of by, sometime, later and before with a blank and
    the run of word characters that follows it. *)
Theorem time_phrase_shapes :
  forall (e : VoiceEntry) (phrase : string),
    exec timePhrases (transcript_of e) = Some phrase ->
    In phrase time_words \/
    exists w X, In w open_phrase_words /\ X <> "" /\ all_word X = true /\
                phrase = w ++ " " ++ X.
Proof.
  intros e phrase H. unfold exec in H.
  destruct (exec_from_sound _ _ _ _ H) as (pre & rest & Hs & Hm).
  pose proof (transcript_of_no_upper e) as Hlow. rewrite Hs in Hlow.
  rewrite no_upper_app in Hlow. apply andb_prop in Hlow as [_ Hrest].
  destruct (bounded_sound _ _ _ _ Hm) as (_ & a & rest' & Hin & Ha & ->).
  apply in_app_or in Hin as [Hin|Hin]; apply in_map_iff in Hin as (v & <- & Hin).
  - left. assert (Hv : no_upper v = true).
    { assert (Hall : forallb no_upper time_words = true) by reflexivity.
      rewrite forallb_forall in Hall. now apply Hall. }
    destruct (lit_sound _ _ _ _ Hv Hrest Ha) as [-> _].
    now rewrite take_app_length.
  - right. assert (Hv : no_upper (v ++ " ") = true).
    { assert (Hall : forallb (fun w => no_upper (w ++ " ")) open_phrase_words = true)
        by reflexivity.
      rewrite forallb_forall in Hall. now apply Hall. }
    destruct (lit_word_sound _ _ _ _ Hv Hrest Ha) as (X & -> & HX & Hw).
    exists v, X. repeat split; try assumption.
    rewrite <- (string_app_assoc (v ++ " ") X rest'), take_app_length.
    apply string_app_assoc.
Qed.

Definition open_phrase_fixture : VoiceEntry :=
  entry_of "Submit the report by Friday_13 at noon" "2025-06-17T00:00:00Z".

Lemma time_phrase_shapes_witness :
  exec timePhrases (transcript_of open_phrase_fixture) = Some "by friday_13" /\
  (In "by friday_13" time_words \/
   exists w X, In w open_phrase_words /\ X <> "" /\ all_word X = true /\
               "by friday_13" = w ++ " " ++ X).
Proof.
  assert (H : exec timePhrases (transcript_of open_phrase_fixture) = Some "by friday_13")
    by (vm_compute; reflexivity).
  split; [exact H|]. exact (time_phrase_shapes open_phrase_fixture "by friday_13" H).
Defined.

(* ================================================================== *)
(** * The stand-in embedding *)
(* ================================================================== *)

Section StandIn.

Import PrimFloat.

(** One component of the stand-in vector. *)
Definition component (x : float) : bool := (0 <=? x)%float && (x <? 1)%float.

Lemma component_of_code c :
  0 <= c < 100 -> component (of_Z c / of_Z 100)%float = true.
Proof.
  intros Hc.
  assert (Hall : forallb (fun n => component (of_Z (Z.of_nat n) / of_Z 100)%float)
                         (seq 0 100) = true) by (vm_compute; reflexivity).
  rewrite forallb_forall in Hall.
  rewrite <- (Z2Nat.id c) by lia. apply Hall. apply in_seq. lia.
Qed.

Lemma get_app_l a : forall i b,
  (i < String.length a)%nat -> String.get i (a ++ b) = String.get i a.
Proof.
  induction a as [|c a IH]; intros i b Hi; cbn [String.length] in Hi; [lia|].
  change (String c a ++ b) with (String c (a ++ b)).
  destruct i as [|i]; [reflexivity|]. cbn [String.get]. apply IH. lia.
Qed.

End StandIn.

(** Without a key the embedding of any text has eight components, each
    at least 0 and below 1. *)
Theorem embed_stub_shape :
  forall text : string,
    length (embed_stub text) = 8%nat /\ Forall (fun x => component x = true) (embed_stub text).
Proof.
  intros text. unfold embed_stub. split.
  - now rewrite length_map, length_seq.
  - apply List.Forall_forall. intros x Hx.
    apply in_map_iff in Hx as (i & <- & _). cbv zeta.
    apply component_of_code. apply Z.mod_pos_bound. lia.
Qed.

(** Without a key the embedding of a text of eight characters or more
    reads its first eight characters only. *)
Theorem embed_stub_reads_a_prefix :
  forall a b c : string,
    (8 <= String.length a)%nat -> embed_stub (a ++ b) = embed_stub (a ++ c).
Proof.
  intros a b c Ha. unfold embed_stub. apply map_ext_in. intros i Hi.
  apply in_seq in Hi. cbv zeta.
  rewrite !string_length_app, !Nat.mod_small by lia.
  now rewrite !get_app_l by lia.
Qed.

Lemma embed_stub_reads_a_prefix_witness :
  (8 <= String.length "schedule")%nat /\
  embed_stub ("schedule" ++ " a meeting") = embed_stub ("schedule" ++ "d calls").
Proof.
  assert (H : (8 <= String.length "schedule")%nat) by (vm_compute; lia).
  split; [exact H|]. exact (embed_stub_reads_a_prefix "schedule" " a meeting" "d calls" H).
Defined.
